(** * Liaison: a fetch wrapper with schemas, interceptors and two error modes

    A shallow embedding of the request engine of [packages/liaison]
    ([Liaison], [InterceptionHandler]) and of [coerceError] from
    [packages/outil], followed by the properties of the engine.

    JavaScript objects that the code mutates in place (the [partial] config
    of an instance, its [interceptors] arrays) live in stores and are
    reached through locations, so that aliasing is visible.  Promises are
    modelled by their settlement.  What belongs to the host (URL parsing,
    [Request] validation, [JSON.stringify], string conversion, the stack
    text, [fetch] itself) is a parameter, see [Platform]. *)

From Stdlib Require Import Ascii.
From stdpp Require Import gmap strings list fin_maps pretty.

Local Open Scope string_scope.
Local Open Scope list_scope.
Set Warnings "-register-all".

(** ** Values *)

(** Plain JavaScript data: what is sent, received, thrown.  [DErr] is an
    instance of [Error] (or of a subclass, told apart by [name]); [DBigInt]
    is a [bigint], which [JSON.stringify] refuses. *)
Inductive data : Type :=
| DUndef
| DNull
| DBool (b : bool)
| DNum (n : Z)
| DStr (s : string)
| DArr (items : list data)
| DObj (entries : list (string * data))
| DErr (name message : string)
| DBigInt (n : Z).
(* [DObj] lists the own enumerable keys in the order [Object.entries] gives
   them; in an object they are pairwise distinct. *)

(** A settled promise; a rejection carries whatever was thrown. *)
Inductive settled (A : Type) : Type :=
| Resolved (a : A)
| Rejected (reason : data).
Arguments Resolved {A} a.
Arguments Rejected {A} reason.

Definition settled_bind {A B} (m : settled A) (k : A -> settled B) : settled B :=
  match m with
  | Resolved a => k a
  | Rejected e => Rejected e
  end.

Notation "x ←ₚ m ; k" := (settled_bind m (fun x => k))
  (at level 20, m at level 100, k at level 200, right associativity,
   format "'[' x  ←ₚ  m ;  '/' k ']'").

Definition is_resolved {A} (m : settled A) : bool :=
  match m with Resolved _ => true | Rejected _ => false end.

(** How a synchronous evaluation completes: with a value, or by throwing. *)
Inductive completion (A : Type) : Type :=
| Normal (a : A)
| Throw (thrown : data).
Arguments Normal {A} a.
Arguments Throw {A} thrown.

(** [error instanceof Error] *)
Definition instanceof_Error (e : data) : bool :=
  match e with DErr _ _ => true | _ => false end.

(** A [Response] as the engine reads it: status line, [type], the
    content-type header, and what the body readers [text()] and [json()]
    settle to. *)
Record Response : Type := mkResponse {
  status : Z;
  statusText : string;
  res_type : string;
  content_type : option string;
  body_text : settled string;
  body_json : settled data;
}.

(** [res.ok] *)
Definition ok (res : Response) : bool :=
  bool_decide (200 ≤ status res ≤ 299)%Z.

(** The result of running a Zod schema on an input: the parsed output, a
    validation issue with its message, or an exception escaping from a
    user transform. *)
Inductive parsed : Type :=
| Valid (output : data)
| Invalid (message : string)
| Crash (thrown : data).

(** [Concrete.Schema]: a schema is what its parser does. *)
Definition Schema : Type := data -> parsed.

(** A value held under a config key.  A function value is described by its
    identity and by what it does on the two kinds of argument the engine
    applies config functions to: the Zod handle [z] ([CreateSchema]) and a
    [Response] ([handleResponse]). *)
Inductive value : Type :=
| VData (d : data)
| VSchema (s : Schema)
| VFun (f : func)
with func : Type :=
| Func (fid : nat) (on_zod : applied) (on_response : Response -> settled data)
with applied : Type :=
| Returns (v : value)
| Throws (e : data).

Definition on_zod (f : func) : applied :=
  match f with Func _ a _ => a end.
Definition on_response (f : func) : Response -> settled data :=
  match f with Func _ _ h => h end.

(** A config object: own keys to values.  Key order is never observed on
    config objects, so a finite map is enough. *)
Abbreviation obj := (gmap string value).

(** [v === undefined || v === null], for a property that may be absent. *)
Definition nullish (v : option value) : bool :=
  match v with
  | None | Some (VData DUndef) | Some (VData DNull) => true
  | _ => false
  end.

(** [{ ...a, ...b }]: own keys of [b] win, also when [b] holds [undefined]. *)
Definition spread (a b : obj) : obj := b ∪ a.

(** ** Instances and the object store *)

Abbreviation loc := nat.

(** The store of config objects. *)
Abbreviation ostore := (gmap loc obj).

(** A [Liaison] instance.  The fields [extends], [partial] and
    [interceptors] are assigned once, by the constructor; what the code
    mutates afterwards are the objects they refer to.  So an instance is an
    immutable triple: the instance it extends, the location of its
    [partial] object and the location of its [interceptors]. *)
Inductive liaison : Type :=
| Liaison (extends : option liaison) (partial : loc) (interceptors : loc).

Definition extends (l : liaison) : option liaison :=
  match l with Liaison e _ _ => e end.
Definition partial (l : liaison) : loc :=
  match l with Liaison _ p _ => p end.
Definition interceptors (l : liaison) : loc :=
  match l with Liaison _ _ i => i end.

(** The instances reached by following [extends] from [l], nearest first:
    the values the loop variable [ext] (resp. [current]) takes. *)
Fixpoint ancestors (l : liaison) : list liaison :=
  match l with
  | Liaison None _ _ => []
  | Liaison (Some e) _ _ => e :: ancestors e
  end.

(** [z.unknown()] *)
Definition z_unknown : Schema := Valid.

(** Allocation of an object literal. *)
Definition alloc (σ : ostore) (o : obj) : loc * ostore :=
  let l := fresh (dom σ) in (l, <[l := o]> σ).

(** [opts[key] = v], through the reference [opts]. *)
Definition set_prop (σ : ostore) (opts : loc) (key : string) (v : value) : ostore :=
  <[opts := <[key := v]> (σ !!! opts)]> σ.

(** One turn of [while (ext) { opts = { ...ext.partial, ...opts }; ext = ext.extends }]. *)
Definition merge_under (st : loc * ostore) (ext : liaison) : loc * ostore :=
  let '(opts, σ) := st in
  alloc σ (spread (σ !!! partial ext) (σ !!! opts)).

Definition schema_keys : list string := ["params"; "body"; "response"].

(** One turn of [for (const key of keys)]:
    [opts[key] ??= z.unknown()] and then
    [if (typeof opts[key] === "function") opts[key] = opts[key](z)]. *)
Definition normalize_key (st : settled unit * ostore) (opts : loc) (key : string)
  : settled unit * ostore :=
  match st with
  | (Rejected e, σ) => (Rejected e, σ)
  | (Resolved _, σ) =>
      let σ1 := if nullish ((σ !!! opts) !! key)
                then set_prop σ opts key (VSchema z_unknown) else σ in
      match (σ1 !!! opts) !! key with
      | Some (VFun f) =>
          match on_zod f with
          | Returns v => (Resolved (), set_prop σ1 opts key v)
          | Throws e => (Rejected e, σ1)
          end
      | _ => (Resolved (), σ1)
      end
  end.

(** [get config()].  [opts] starts as the very object [this.partial]; it is
    replaced by a fresh object only if the loop runs at least once. *)
Definition config (σ : ostore) (this : liaison) : settled loc * ostore :=
  let '(opts, σ1) := foldl merge_under (partial this, σ) (ancestors this) in
  let '(r, σ2) := foldl (fun st key => normalize_key st opts key)
                        (Resolved (), σ1) schema_keys in
  (_ ←ₚ r; Resolved opts, σ2).

(** ** The nearest definition of a key *)

(** The value of [k] in the [partial] of the instance nearest to [l] (itself
    first) that has [k] as an own key. *)
Fixpoint closest (σ : ostore) (l : liaison) (k : string) : option value :=
  match l with
  | Liaison ext p _ =>
      match (σ !!! p) !! k with
      | Some v => Some v
      | None => match ext with Some e => closest σ e k | None => None end
      end
  end.

(** What the getter leaves under a schema key whose merged value is [v]. *)
Definition materialized (v : option value) : option value :=
  if nullish v then Some (VSchema z_unknown)
  else match v with
       | Some (VFun f) =>
           match on_zod f with Returns s => Some s | Throws _ => None end
       | _ => v
       end.

(** The [partial] objects of the whole extension chain are allocated. *)
Definition chain_allocated (σ : ostore) (l : liaison) : Prop :=
  Forall (fun e => partial e ∈ dom σ) (l :: ancestors l).

(** The first own definition of [k] along a list of instances. *)
Fixpoint closest_in (σ : ostore) (es : list liaison) (k : string) : option value :=
  match es with
  | [] => None
  | e :: es' =>
      match (σ !!! partial e) !! k with
      | Some v => Some v
      | None => closest_in σ es' k
      end
  end.

(** ** The host platform *)

(** A parsed URL: everything before the query, the list of query
    parameters that [URLSearchParams] manages, and the fragment. *)
Record URL : Type := mkURL {
  href_base : string;
  searchParams : list (string * string);
  hash : string;
}.

(** A [Request]: its URL and the members of the [RequestInit] it was
    built with (the body among them, under ["body"]). *)
Record Request : Type := mkRequest {
  req_url : URL;
  req_init : obj;
}.

(** What the engine takes from its host:
    - [parse_URL]: the URL parser applied to a string input (against the
      document base, where there is one); [None] when it fails;
    - [init_error]: the validation [new Request] performs on its init
      dictionary, [Some msg] when it throws a [TypeError];
    - [JSON_stringify]: [JSON.stringify]: it returns a string, or
      [undefined] ([None]), or throws a [TypeError], as it does on a
      [bigint] and on a cyclic object;
    - [ToString]: the string conversion of template literals and of
      [URLSearchParams.append];
    - [stack_text]: the text [getStack] derives from [new Error().stack];
    - [fetch]: the transport;
    - [params_rejects_first]: when both validations of a call fail, whether
      the rejection of the params validation is the one [Promise.all]
      sees first. *)
Class Platform : Type := {
  parse_URL : string -> option URL;
  init_error : obj -> option string;
  JSON_stringify : data -> completion (option string);
  ToString : value -> string;
  stack_text : option string;
  fetch : Request -> settled Response;
  params_rejects_first : bool;
}.

Inductive RequestInfo : Type :=
| InfoString (s : string)
| InfoURL (u : URL)
| InfoRequest (r : Request).

(** [new Request(info, init)].  A URL object or a request given as input
    carries an already parsed URL; the members of [init] override those of
    an input request. *)
Definition new_Request `{Platform} (info : RequestInfo) (init : obj) : settled Request :=
  u ←ₚ match info with
       | InfoString s =>
           match parse_URL s with
           | Some u => Resolved (u, ∅)
           | None => Rejected (DErr "TypeError" ("Failed to parse URL from " +:+ s))
           end
       | InfoURL u => Resolved (u, ∅)
       | InfoRequest r => Resolved (req_url r, req_init r)
       end;
  match init_error init with
  | Some msg => Rejected (DErr "TypeError" msg)
  | None => Resolved (mkRequest u.1 (spread u.2 init))
  end.

(** [coerceError]: [new Error(undefined)] has the empty message; what
    [JSON.stringify] throws escapes. *)
Definition coerceError `{Platform} (error : data) : completion data :=
  if instanceof_Error error then Normal error
  else match JSON_stringify error with
       | Normal text => Normal (DErr "Error" (default "" text))
       | Throw thrown => Throw thrown
       end.

(** The stack captured when the call starts, [getStack()]. *)
Definition getStack `{Platform} : option string := stack_text.

(** ** Zod as the engine uses it *)

(** [schema.parseAsync(input, { errorMap })]: a validation issue rejects
    with a [ZodError] whose message went through the contextual error map;
    an exception of a transform rejects as it is. *)
Definition parseAsync (schema : Schema) (input : data) (errorMap : string -> string)
  : settled data :=
  match schema input with
  | Valid out => Resolved out
  | Invalid msg => Rejected (DErr "ZodError" (errorMap msg))
  | Crash e => Rejected e
  end.

(** [a.pipe(b)] *)
Definition pipe (a b : Schema) : Schema := fun input =>
  match a input with
  | Valid out => b out
  | other => other
  end.

(** [addErrorMap(schemaType)], as the map from the default message to the
    final one. *)
Definition addErrorMap (schemaType : string) (defaultError : string) : string :=
  schemaType +:+ " schema | " +:+ defaultError.

(** The error map bound to [baseParamSchema]. *)
Definition baseParamErrorMap (defaultError : string) : string :=
  "URL param schema must produce a value that can be serializable. (Record<string, string | string[]>) | "
  +:+ defaultError.

Definition is_string (d : data) : bool :=
  match d with DStr _ => true | _ => false end.

(** [z.union([z.array(z.string()), z.string()])] accepts [d]. *)
Definition param_value_ok (d : data) : bool :=
  match d with
  | DStr _ => true
  | DArr items => forallb is_string items
  | _ => false
  end.

(** [baseParamSchema]: [undefined] or a record of strings and string
    arrays, then [v ?? {}].  An [Error] instance is an object without
    enumerable keys, hence an empty record.  The message of the union's
    issue is Zod's default, ["Invalid input"], through the bound map. *)
Definition baseParamSchema : Schema := fun v =>
  match v with
  | DUndef => Valid (DObj [])
  | DObj entries =>
      if forallb (fun kv => param_value_ok kv.2) entries then Valid (DObj entries)
      else Invalid (baseParamErrorMap "Invalid input")
  | DErr _ _ => Valid (DObj [])
  | _ => Invalid (baseParamErrorMap "Invalid input")
  end.

(** ** Free functions of the engine *)

(** [Object.entries] of a validated params value. *)
Definition Object_entries (params : data) : list (string * data) :=
  match params with DObj entries => entries | _ => [] end.

(** [[value].flat()] *)
Definition flat1 (value : data) : list data :=
  match value with DArr items => items | v => [v] end.

(** The string [URLSearchParams.append] stores for a value. *)
Definition USVString `{Platform} (v : data) : string :=
  match v with DStr s => s | _ => ToString (VData v) end.

(** [url.searchParams.append(key, v)] *)
Definition append (url : URL) (key : string) (v : string) : URL :=
  mkURL (href_base url) (searchParams url ++ [(key, v)]) (hash url).

(** [setUrlParams] *)
Definition setUrlParams `{Platform} (info : RequestInfo) (params : list (string * data))
  : settled Request :=
  req ←ₚ new_Request info ∅;
  let url := req_url req in
  let url := foldl (fun url kv =>
                      foldl (fun url v => append url kv.1 (USVString v)) url (flat1 kv.2))
                   url params in
  new_Request (InfoURL url) ∅.

(** [hay.includes(needle)] *)
Fixpoint includes (hay needle : string) : bool :=
  String.prefix needle hay ||
  match hay with
  | EmptyString => false
  | String _ rest => includes rest needle
  end.

(** [unwrapRespone] *)
Definition unwrapRespone (response : Response) : settled data :=
  let type := default "" (content_type response) in
  if includes type "application/json" then body_json response
  else (t ←ₚ body_text response; Resolved (DStr t)).

(** [Array.prototype.join] on strings *)
Definition join (sep : string) (parts : list string) : string :=
  String.concat sep parts.

(** The double-quote character *)
Definition dquote : string := String (Ascii.ascii_of_nat 34) EmptyString.

(** [handleServerError] *)
Definition handleServerError (res : Response) : settled Response :=
  if ok res then Resolved res
  else
    text ←ₚ body_text res;
    Rejected (DErr "Error" (join ", " [
      "code: " +:+ pretty (status res);
      "type: " +:+ res_type res;
      "text: " +:+ dquote +:+ statusText res;
      "server-response: " +:+ text ])).

(** ** Interceptors *)

(** An interceptor callback: a function with an identity ([indexOf]
    compares by reference).  It gets the accumulator and the context
    arguments and returns a promise. *)
Record callback (A C : Type) : Type := Callback {
  cb_id : nat;
  cb_run : A -> C -> settled A;
}.
Arguments Callback {A C} cb_id cb_run.
Arguments cb_id {A C} c.
Arguments cb_run {A C} c acc ctx.

(** Context arguments of the three events of [CallbackMap]:
    [(callStack)], [(request, callStack)], [(request, when, callStack)]. *)
Abbreviation request_ctx := (option string).
Abbreviation response_ctx := (Request * option string)%type.
Abbreviation error_ctx := (Request * string * option string)%type.

(** [Interceptors]: the three arrays of an instance. *)
Record Interceptors : Type := mkInterceptors {
  request : list (callback Request request_ctx);
  response : list (callback Response response_ctx);
  error : list (callback data error_ctx);
}.

Global Instance Interceptors_inhabited : Inhabited Interceptors :=
  populate (mkInterceptors [] [] []).

Inductive InterceptorEvent : Type := ev_request | ev_response | ev_error.

(** A callback together with the event it is registered for. *)
Inductive interceptor : Type :=
| OnRequest (cb : callback Request request_ctx)
| OnResponse (cb : callback Response response_ctx)
| OnError (cb : callback data error_ctx).

Definition event_of (i : interceptor) : InterceptorEvent :=
  match i with OnRequest _ => ev_request | OnResponse _ => ev_response | OnError _ => ev_error end.

Definition id_of (i : interceptor) : nat :=
  match i with OnRequest c => cb_id c | OnResponse c => cb_id c | OnError c => cb_id c end.

(** The mutable part the interceptor API works on: the [interceptors]
    object of every instance, the pending once-listeners of every abort
    signal (each removes callback [id] from the [event] array at a
    location), and the signals that have fired. *)
Record registry : Type := mkRegistry {
  arrays : gmap loc Interceptors;
  listeners : gmap nat (list (loc * InterceptorEvent * nat));
  aborted : gset nat;
}.

(** [array.indexOf(callback)], [-1] when absent. *)
Fixpoint indexOf {A C} (array : list (callback A C)) (id : nat) : Z :=
  match array with
  | [] => -1
  | c :: rest =>
      if decide (cb_id c = id) then 0
      else let i := indexOf rest id in if decide (i = -1)%Z then -1 else (1 + i)%Z
  end.

(** [array.splice(index, 1)]: a negative index counts from the end. *)
Definition splice1 {X} (array : list X) (index : Z) : list X :=
  let len := Z.of_nat (length array) in
  let start := if decide (index < 0)%Z then Z.max (len + index) 0 else Z.min index len in
  take (Z.to_nat start) array ++ drop (S (Z.to_nat start)) array.

(** [this.interceptors[event].push(callback)] *)
Definition push (i : interceptor) (a : Interceptors) : Interceptors :=
  match i with
  | OnRequest c => mkInterceptors (request a ++ [c]) (response a) (error a)
  | OnResponse c => mkInterceptors (request a) (response a ++ [c]) (error a)
  | OnError c => mkInterceptors (request a) (response a) (error a ++ [c])
  end.

(** The abort listener of [addInterceptor]:
    [index = this.interceptors[event].indexOf(callback)] and
    [this.interceptors[event].splice(index, 1)]. *)
Definition remove_callback (ev : InterceptorEvent) (id : nat) (a : Interceptors)
  : Interceptors :=
  match ev with
  | ev_request => mkInterceptors (splice1 (request a) (indexOf (request a) id)) (response a) (error a)
  | ev_response => mkInterceptors (request a) (splice1 (response a) (indexOf (response a) id)) (error a)
  | ev_error => mkInterceptors (request a) (response a) (splice1 (error a) (indexOf (error a) id))
  end.

(** The constructor, once its overloads are resolved: [extends] is the
    instance given first, if any; [partial] is the config object given (or
    returned by the config callback), by reference; [interceptors] is a
    new object with three empty arrays. *)
Definition new_Liaison (ρ : registry) (extend : option liaison) (config_ : loc)
  : liaison * registry :=
  let at_ := fresh (dom (arrays ρ)) in
  (Liaison extend config_ at_,
   mkRegistry (<[at_ := mkInterceptors [] [] []]> (arrays ρ)) (listeners ρ) (aborted ρ)).

(** [addInterceptor(event, callback, options)] *)
Definition addInterceptor (ρ : registry) (this : liaison) (i : interceptor)
  (signal : option nat) : registry :=
  let at_ := interceptors this in
  let arrays' := <[at_ := push i (arrays ρ !!! at_)]> (arrays ρ) in
  match signal with
  | None => mkRegistry arrays' (listeners ρ) (aborted ρ)
  | Some s =>
      mkRegistry arrays'
        (<[s := default [] (listeners ρ !! s) ++ [(at_, event_of i, id_of i)]]> (listeners ρ))
        (aborted ρ)
  end.

(** [controller.abort()]: the listeners of the signal run once, in the
    order they were added; a signal fires at most once. *)
Definition abort (ρ : registry) (s : nat) : registry :=
  if decide (s ∈ aborted ρ) then ρ
  else
    let run arrs (l : loc * InterceptorEvent * nat) :=
      <[l.1.1 := remove_callback l.1.2 l.2 (arrs !!! l.1.1)]> arrs in
    mkRegistry (foldl run (arrays ρ) (default [] (listeners ρ !! s)))
               (delete s (listeners ρ))
               ({[s]} ∪ aborted ρ).

(** ** The extension chain *)

(** A JavaScript object as an ordered list of own string keys. *)
Definition js_set {V} (o : list (string * V)) (k : string) (v : V) : list (string * V) :=
  if decide (k ∈ o.*1)
  then (fun kv => if decide (kv.1 = k) then (k, v) else kv) <$> o
  else o ++ [(k, v)].

Definition is_digit (c : Ascii.ascii) : bool :=
  let n := Ascii.nat_of_ascii c in bool_decide (48 ≤ n ≤ 57)%nat.

Fixpoint digits_value (acc : N) (s : string) : option N :=
  match s with
  | EmptyString => Some acc
  | String c rest =>
      if is_digit c
      then digits_value (acc * 10 + N.of_nat (Ascii.nat_of_ascii c - 48)) rest
      else None
  end.

(** Whether a key is an array index: a canonical decimal numeral below
    [2^32 - 1]. *)
Definition array_index (k : string) : option N :=
  match k with
  | EmptyString => None
  | _ =>
      match digits_value 0 k with
      | Some n => if decide (pretty n = k ∧ (n < 4294967295)%N) then Some n else None
      | None => None
      end
  end.

Fixpoint insert_by_index {V} (e : N * V) (sorted : list (N * V)) : list (N * V) :=
  match sorted with
  | [] => [e]
  | e' :: rest =>
      if decide (e.1 < e'.1)%N then e :: e' :: rest else e' :: insert_by_index e rest
  end.

(** [Object.values]: array-index keys first, in ascending order, then the
    other keys in the order they were created. *)
Definition Object_values {V} (o : list (string * V)) : list V :=
  let indexed := omap (fun kv => (fun n => (n, kv.2)) <$> array_index kv.1) o in
  let named := filter (fun kv => array_index kv.1 = None) o in
  (foldr insert_by_index [] indexed).*2 ++ named.*2.

(** [e.partial.name ?? "unnamed"], inside a template literal. *)
Definition name_of `{Platform} (σ : ostore) (e : liaison) : string :=
  let name := (σ !!! partial e) !! "name" in
  if nullish name then "unnamed"
  else match name with
       | Some (VData (DStr s)) => s
       | Some v => ToString v
       | None => "unnamed"
       end.

(** [get chain()] *)
Definition chain `{Platform} (σ : ostore) (this : liaison) : list (string * liaison) :=
  let instances := this :: ancestors this in
  foldl (fun a ie => js_set a (pretty ie.1 +:+ "-" +:+ name_of σ ie.2) ie.2) []
        (imap pair (reverse instances)).

(** [isLiaison]: every member of a chain is an instance. *)
Definition isLiaison (value : liaison) : bool := true.

(** [#getInterceptors(event)]; [event] is the projection of the array. *)
Definition getInterceptors `{Platform} {T} (σ : ostore) (ρ : registry) (this : liaison)
  (event : Interceptors -> list T) : list T :=
  let chain := Object_values (chain σ this) in
  mjoin ((fun e => if isLiaison e then event (arrays ρ !!! interceptors e) else [])
         <$> chain).

(** The extension chain from the root to the instance itself. *)
Definition root_to_leaf (this : liaison) : list liaison :=
  reverse (this :: ancestors this).

(** ** Pipelines *)

(** One turn of [cbs.reduce(async (a, e) => e(await a, ...ctx), Promise.resolve(acc))],
    keeping a log of the calls made: which callback, on which input. *)
Definition pipe_turn {A C} (ctx : C) (a : settled A * list (nat * A)) (e : callback A C)
  : settled A * list (nat * A) :=
  match a.1 with
  | Resolved x => (cb_run e x ctx, a.2 ++ [(cb_id e, x)])
  | Rejected r => (Rejected r, a.2)
  end.

(** [createRequestPipe], [createResponsePipe] and [createErrorPipe] have
    one body. *)
Definition createPipe {A C} (cbs : list (callback A C)) (acc : A) (ctx : C)
  : settled A * list (nat * A) :=
  foldl (pipe_turn ctx) (Resolved acc, []) cbs.

Definition createRequestPipe := @createPipe Request request_ctx.
Definition createResponsePipe := @createPipe Response response_ctx.
Definition createErrorPipe := @createPipe data error_ctx.

(** Running the callbacks one after the other, by recursion on the list:
    the reading of "strict left-to-right sequential folding". *)
Fixpoint run_in_order {A C} (cbs : list (callback A C)) (acc : A) (ctx : C)
  : settled A * list (nat * A) :=
  match cbs with
  | [] => (Resolved acc, [])
  | e :: rest =>
      match cb_run e acc ctx with
      | Resolved x =>
          let '(r, log) := run_in_order rest x ctx in (r, (cb_id e, acc) :: log)
      | Rejected r => (Rejected r, [(cb_id e, acc)])
      end
  end.

(** ** The call *)

(** The [override] member of a call config: a function of the resolved
    config returning a fragment, or some other value. *)
Inductive Override : Type :=
| OverrideFn (f : obj -> settled (gmap string data))
| OverrideValue (v : data).

(** The argument of [go] and [safeGo].  Its members other than
    [override] are plain data (inputs for the schemas, [url], and
    [RequestInit] members). *)
Record CallConfig : Type := mkCallConfig {
  members : gmap string data;
  override : option Override;
}.

(** [callConfig.override?.(instanceConfig)]: the optional call skips
    [undefined] and [null] only, so any other value is called. *)
Definition call_override (o : option Override) (instanceConfig : obj)
  : settled (gmap string data) :=
  match o with
  | None | Some (OverrideValue DUndef) | Some (OverrideValue DNull) => Resolved ∅
  | Some (OverrideFn f) => f instanceConfig
  | Some (OverrideValue _) =>
      Rejected (DErr "TypeError" "callConfig.override is not a function")
  end.

(** [instanceConfigRest]: the resolved config without the four members
    taken out by the first destructuring. *)
Definition instanceConfigRest (instanceConfig : obj) : obj :=
  delete "handleResponse" (delete "response" (delete "body" (delete "params" instanceConfig))).

(** [{ ...instanceConfigRest, ...callConfig, ...callConfigOverrides }].
    The spread also copies the [override] member itself; it is never read
    again ([new Request] ignores members it does not know) and is left out. *)
Definition merged_config (instanceConfig : obj) (callConfig : CallConfig)
  (callConfigOverrides : gmap string data) : obj :=
  spread (spread (instanceConfigRest instanceConfig) (VData <$> members callConfig))
         (VData <$> callConfigOverrides).

Definition missing_url : string := "somehow a missing URL found its way".

(** [url: stringUrl = "somehow a missing URL found its way"]: the default
    applies to an absent or [undefined] member. *)
Definition stringUrl_of `{Platform} (merged : obj) : string :=
  match merged !! "url" with
  | None | Some (VData DUndef) => missing_url
  | Some (VData (DStr s)) => s
  | Some v => ToString v
  end.

(** [body: bodyInput] and [params: paramsInput].  Neither key is in
    [instanceConfigRest], so what is found comes from the call config or
    the override fragment and is data. *)
Definition input_of (merged : obj) (key : string) : data :=
  match merged !! key with
  | Some (VData d) => d
  | _ => DUndef
  end.

(** [...nativeConfig] *)
Definition nativeConfig_of (merged : obj) : obj :=
  delete "url" (delete "params" (delete "body" merged)).

(** A member used as a schema: calling [.pipe] or [.parseAsync] on
    anything else throws. *)
Definition as_schema (what : string) (v : option value) : settled Schema :=
  match v with
  | Some (VSchema s) => Resolved s
  | _ => Rejected (DErr "TypeError" (what +:+ " is not a function"))
  end.

(** What the synchronous part of [#fetch] has computed when the call first
    suspends. *)
Record prepared : Type := mkPrepared {
  stack : option string;
  paramSchema : Schema;
  bodySchema : Schema;
  responseSchema : option value;
  handleResponse : option value;
  stringUrl : string;
  nativeConfig : obj;
  paramsInput : data;
  bodyInput : data;
  initialRequest : Request;
}.

(** [#fetch], up to the first suspension.  Nothing here is inside a
    [catch]: a failure rejects the call as it is. *)
Definition prepare `{Platform} (σ : ostore) (this : liaison) (config_ : option CallConfig)
  : settled prepared * ostore :=
  let stack := getStack in
  let '(r, σ') := config σ this in
  (opts ←ₚ r;
   let instanceConfig := σ' !!! opts in
   let callConfig := default (mkCallConfig ∅ None) config_ in
   callConfigOverrides ←ₚ call_override (override callConfig) instanceConfig;
   let merged := merged_config instanceConfig callConfig callConfigOverrides in
   let stringUrl := stringUrl_of merged in
   let nativeConfig := nativeConfig_of merged in
   currentRequest ←ₚ new_Request (InfoString stringUrl) nativeConfig;
   paramSchema ←ₚ as_schema "paramSchema.pipe" (instanceConfig !! "params");
   bodySchema ←ₚ as_schema "bodySchema.parseAsync" (instanceConfig !! "body");
   Resolved (mkPrepared stack paramSchema bodySchema
               (instanceConfig !! "response") (instanceConfig !! "handleResponse")
               stringUrl nativeConfig
               (input_of merged "params") (input_of merged "body") currentRequest),
   σ').

(** [paramSchema.pipe(baseParamSchema).parseAsync(paramsInput, addErrorMap("URL params"))] *)
Definition validate_params (p : prepared) : settled data :=
  parseAsync (pipe (paramSchema p) baseParamSchema) (paramsInput p) (addErrorMap "URL params").

(** [bodySchema.parseAsync(bodyInput, addErrorMap("Body"))] *)
Definition validate_body (p : prepared) : settled data :=
  parseAsync (bodySchema p) (bodyInput p) (addErrorMap "Body").

(** [Promise.all([params validation, body validation])] *)
Definition validate `{Platform} (p : prepared) : settled (data * data) :=
  let params := validate_params p in
  let body := validate_body p in
  match params, body with
  | Resolved ps, Resolved b => Resolved (ps, b)
  | Rejected e, Resolved _ => Rejected e
  | Resolved _, Rejected e => Rejected e
  | Rejected e1, Rejected e2 => Rejected (if params_rejects_first then e1 else e2)
  end.

(** [new Request(setUrlParams(stringUrl, params), { ...nativeConfig, body })] *)
Definition build `{Platform} (p : prepared) (params body : data) : settled Request :=
  withParams ←ₚ setUrlParams (InfoString (stringUrl p)) (Object_entries params);
  new_Request (InfoRequest withParams) (<["body" := VData body]> (nativeConfig p)).

(** What a call did that can be seen from outside: the interceptors it
    called, with their arguments, and the transport call. *)
Inductive event : Type :=
| CalledRequest (id : nat) (input : Request) (ctx : request_ctx)
| CalledResponse (id : nat) (input : Response) (ctx : response_ctx)
| CalledError (id : nat) (input : data) (ctx : error_ctx)
| CalledFetch (r : Request).

(** The promise chain that ends in [finalRequest], without its [catch]:
    its settlement, the value of [currentRequest] at that time, and the
    request interceptors called.  The getter [#requestPipe] is read when
    the second [then] callback runs: [ρ] is the registry of that moment. *)
Definition form_request `{Platform} (σ : ostore) (ρ : registry) (this : liaison)
  (p : prepared) : settled Request * Request * list event :=
  match validate p with
  | Rejected err => (Rejected err, initialRequest p, [])
  | Resolved (params, body) =>
      match build p params body with
      | Rejected err => (Rejected err, initialRequest p, [])
      | Resolved built =>
          let '(r, log) := createRequestPipe (getInterceptors σ ρ this request)
                                             built (stack p) in
          let log := (fun c => CalledRequest c.1 c.2 (stack p)) <$> log in
          match r with
          | Resolved req => (Resolved req, req, log)
          | Rejected err => (Rejected err, built, log)
          end
      end
  end.

(** Both [catch] callbacks:
    [const coercedError = coerceError(err)] and then
    [throw await this.#errorPipe(coercedError, request, when, stack)].
    Whether the pipe resolves or rejects, the callback throws; when
    [coerceError] itself throws, the callback throws that and the error
    pipe is not reached.  [ρ] is the registry when the callback runs. *)
Definition catch_with `{Platform} (σ : ostore) (ρ : registry) (this : liaison)
  (err : data) (request_ : Request) (when : string) (stack : option string)
  : data * list event :=
  match coerceError err with
  | Throw thrown => (thrown, [])
  | Normal coercedError =>
      let ctx := (request_, when, stack) in
      let '(r, log) := createErrorPipe (getInterceptors σ ρ this error) coercedError ctx in
      (match r with Resolved e => e | Rejected e => e end,
       (fun c => CalledError c.1 c.2 ctx) <$> log)
  end.

(** A [Response] seen as data, for a [handleResponse] that is not callable
    ([then] then passes the response on as it is). *)
Definition Response_data (res : Response) : data :=
  DObj [("status", DNum (status res)); ("statusText", DStr (statusText res));
        ("type", DStr (res_type res)); ("ok", DBool (ok res))].

(** [.then(handleResponse ?? unwrapRespone)] *)
Definition unwrap_with (handleResponse : option value) (res : Response) : settled data :=
  if nullish handleResponse then unwrapRespone res
  else match handleResponse with
       | Some (VFun f) => on_response f res
       | _ => Resolved (Response_data res)
       end.

(** The second promise chain, without its [catch].  The getter
    [#responsePipe] is read when its [then] callback runs: [ρ] is the
    registry of that moment.  The pipe is called with the response and the
    final request only, so the interceptors get no call stack. *)
Definition receive `{Platform} (σ : ostore) (ρ : registry) (this : liaison)
  (p : prepared) (finalRequest : Request) : settled data * list event :=
  match (res ←ₚ fetch finalRequest; handleServerError res) with
  | Rejected err => (Rejected err, [CalledFetch finalRequest])
  | Resolved res =>
      let ctx := (finalRequest, None) in
      let '(r, log) := createResponsePipe (getInterceptors σ ρ this response) res ctx in
      let log := CalledFetch finalRequest :: ((fun c => CalledResponse c.1 c.2 ctx) <$> log) in
      (res' ←ₚ r;
       unwrapped ←ₚ unwrap_with (handleResponse p) res';
       schema ←ₚ as_schema "responseSchema.parseAsync" (responseSchema p);
       parseAsync schema unwrapped (addErrorMap "Response"),
       log)
  end.

(** The registries a call reads, each at the moment it reads it: when the
    request pipe, the response pipe and the error pipe are built. *)
Record timeline : Type := mkTimeline {
  at_request : registry;
  at_response : registry;
  at_error : registry;
}.

(** A call during which nobody touches the interceptors. *)
Definition quiet (ρ : registry) : timeline := mkTimeline ρ ρ ρ.

(** [#fetch]: the settlement of the call, what it did, and the object
    store it leaves. *)
Definition Liaison_fetch `{Platform} (σ : ostore) (tl : timeline) (this : liaison)
  (config_ : option CallConfig) : settled data * list event * ostore :=
  match prepare σ this config_ with
  | (Rejected err, σ') => (Rejected err, [], σ')
  | (Resolved p, σ') =>
      let '(formed, currentRequest, log1) := form_request σ' (at_request tl) this p in
      match formed with
      | Rejected err =>
          let '(e, log2) := catch_with σ' (at_error tl) this err currentRequest
                                       "request" (stack p) in
          (Rejected e, log1 ++ log2, σ')
      | Resolved finalRequest =>
          let '(received, log2) := receive σ' (at_response tl) this p finalRequest in
          match received with
          | Resolved v => (Resolved v, log1 ++ log2, σ')
          | Rejected err =>
              let '(e, log3) := catch_with σ' (at_error tl) this err finalRequest
                                           "response" (stack p) in
              (Rejected e, log1 ++ log2 ++ log3, σ')
          end
      end
  end.

(** [go] *)
Definition go `{Platform} (σ : ostore) (tl : timeline) (this : liaison)
  (config_ : option CallConfig) : settled data :=
  (Liaison_fetch σ tl this config_).1.1.


(** ** Vocabulary of the properties *)

(** [σ'] holds at every location of [σ] what [σ] holds there. *)
Definition extends_store (σ σ' : ostore) : Prop :=
  ∀ p, p ∈ dom σ → σ' !! p = σ !! p.

(** The interceptors of an event along the chain, root first, as the
    arrays of [ρ] hold them. *)
Definition pipeline {T} (ρ : registry) (this : liaison)
  (event : Interceptors -> list T) : list T :=
  mjoin ((fun e => event (arrays ρ !!! interceptors e)) <$> root_to_leaf this).

(** No character of the string is a dash. *)
Fixpoint dash_free (s : string) : Prop :=
  match s with
  | EmptyString => True
  | String c rest => c ≠ "-"%char ∧ dash_free rest
  end.

(** The message of the status error of [handleServerError]. *)
Definition status_message (res : Response) (text : string) : string :=
  "code: " +:+ pretty (status res) +:+ ", type: " +:+ res_type res +:+
  ", text: " +:+ dquote +:+ statusText res +:+ ", server-response: " +:+ text.

(** The query parameters a params record stands for: per entry, one
    parameter per element of an array value, one for a plain value. *)
Definition query_of `{Platform} (entries : list (string * data)) : list (string * string) :=
  entries ≫= fun kv => (fun v => (kv.1, USVString v)) <$> flat1 kv.2.

(** What may happen to the interceptors while a call is suspended. *)
Inductive action : Type :=
| Add (this : liaison) (i : interceptor) (signal : option nat)
| Abort (signal : nat).

Definition act (ρ : registry) (a : action) : registry :=
  match a with
  | Add this i signal => addInterceptor ρ this i signal
  | Abort s => abort ρ s
  end.

(** The registries a call reads when it starts at [ρ] and the host runs
    [during_validation] before the request pipe is built, then
    [during_transport] before the response pipe is built, then
    [before_catch] before a failure is caught. *)
Definition timeline_of (ρ : registry)
  (during_validation during_transport before_catch : list action) : timeline :=
  let ρ1 := foldl act ρ during_validation in
  let ρ2 := foldl act ρ1 during_transport in
  mkTimeline ρ1 ρ2 (foldl act ρ2 before_catch).

(** ** Concrete hosts, instances and calls *)

(** A host for the examples: every string parses as a URL without query,
    every init is accepted, and the transport is given. *)
Definition host (transport : Request -> settled Response) : Platform := {|
  parse_URL s := Some (mkURL s [] "");
  init_error _ := None;
  JSON_stringify d := match d with
                      | DUndef => Normal None
                      | DStr s => Normal (Some (dquote +:+ s +:+ dquote))
                      | DBigInt _ =>
                          Throw (DErr "TypeError" "Do not know how to serialize a BigInt")
                      | _ => Normal (Some "{}")
                      end;
  ToString _ := "[object Object]";
  stack_text := None;
  fetch := transport;
  params_rejects_first := true;
|}.

Definition json_response (code : Z) (text : string) (body : data) : Response :=
  mkResponse code text "basic" (Some "application/json") (Resolved "") (Resolved body).

(** A transport answering [200] with the JSON body [{"ok": true}]. *)
Definition echo_ok : Request -> settled Response :=
  fun _ => Resolved (json_response 200 "OK" (DObj [("ok", DBool true)])).

Definition no_registry : registry := mkRegistry ∅ ∅ ∅.

(** The playground's [new Liaison({ name: "interceptor-layer" })]. *)
Definition layer_partial : obj := {[ "name" := VData (DStr "interceptor-layer") ]}.
Definition layer : liaison := Liaison None 0 0.
Definition layer_store : ostore := {[ 0 := layer_partial ]}.

(** A call whose [override] is an object, as [Calltime.Overrides] allows:
    [go({ override: { method: "PUT" } })]. *)
Definition put_override : CallConfig :=
  mkCallConfig ∅ (Some (OverrideValue (DObj [("method", DStr "PUT")]))).




(** A [500] whose body cannot be read. *)
Definition unreadable_500 : Response :=
  mkResponse 500 "Internal Server Error" "basic" None
             (Rejected (DErr "TypeError" "network error"))
             (Rejected (DErr "TypeError" "network error")).

(** Whether an event is a call of an error interceptor. *)
Definition is_error_call (ev : event) : bool :=
  match ev with CalledError _ _ _ => true | _ => false end.

(** Whether an event is the transport call. *)
Definition is_fetch_call (ev : event) : bool :=
  match ev with CalledFetch _ => true | _ => false end.

(** A transport answering [404] with the text body ["missing"]. *)
Definition not_found : Request -> settled Response :=
  fun _ => Resolved (mkResponse 404 "Not Found" "basic" None
                                (Resolved "missing") (Rejected (DErr "SyntaxError" "Unexpected token"))).

(** An error interceptor that records the stage in the name of the error. *)
Definition tag_stage : callback data error_ctx :=
  Callback 1 (fun e ctx =>
    match e with
    | DErr _ msg => Resolved (DErr ctx.1.2 msg)
    | other => Resolved other
    end).

(** The registry after [layer.addInterceptor("error", tag_stage)]. *)
Definition tagging_registry : registry :=
  addInterceptor no_registry layer (OnError tag_stage) None.

(** What [prepare] computes for a call of [layer] without argument. *)
Definition layer_prepared : prepared :=
  mkPrepared None z_unknown z_unknown (Some (VSchema z_unknown)) None
             missing_url layer_partial DUndef DUndef
             (mkRequest (mkURL missing_url [] "") layer_partial).








(** Example B: an instance with [url: "/user"] and a params schema
    requiring [{ id: string }]. *)
Definition id_schema : Schema := fun d =>
  match d with
  | DObj [("id", DStr _)] => Valid d
  | _ => Invalid "Required"
  end.



(** [{ params: { id: "42" } }] *)
Definition with_id_42 : CallConfig :=
  mkCallConfig {[ "params" := DObj [("id", DStr "42")] ]} None.



(** A three-level chain root, mid, leaf.  All three set [method] and
    [params]; the leaf leaves [url] to its ancestors. *)
Definition factory (id : nat) (s : Schema) : value :=
  VFun (Func id (Returns (VSchema s)) (fun _ => Resolved DUndef)).

Definition root_partial : obj :=
  {[ "url" := VData (DStr "/root"); "method" := VData (DStr "GET");
     "params" := factory 1 id_schema ]}.
Definition mid_partial : obj :=
  {[ "url" := VData (DStr "/mid"); "method" := VData (DStr "POST");
     "params" := factory 2 z_unknown ]}.
Definition leaf_partial : obj :=
  {[ "method" := VData (DStr "PUT"); "params" := factory 3 baseParamSchema ]}.

Definition three_store : ostore :=
  {[ 0 := root_partial; 1 := mid_partial; 2 := leaf_partial ]}.
Definition three_root : liaison := Liaison None 0 0.
Definition three_mid : liaison := Liaison (Some three_root) 1 1.
Definition three_leaf : liaison := Liaison (Some three_mid) 2 2.

(** An extension of [three_root] whose [body] factory throws. *)
Definition failing_partial : obj :=
  {[ "body" := VFun (Func 4 (Throws (DStr "no body schema")) (fun _ => Resolved DUndef)) ]}.
Definition failing_store : ostore := {[ 0 := root_partial; 1 := failing_partial ]}.
Definition failing_leaf : liaison := Liaison (Some three_root) 1 1.

(** A [POST] request to [/user?a=1]. *)
Definition post_user : Request :=
  mkRequest (mkURL "/user" [("a", "1")] "") {[ "method" := VData (DStr "POST") ]}.


(** The callback of [i] is in the pipeline of its event. *)
Definition in_pipeline (ρ : registry) (this : liaison) (i : interceptor) : Prop :=
  match i with
  | OnRequest c => c ∈ pipeline ρ this request
  | OnResponse c => c ∈ pipeline ρ this response
  | OnError c => c ∈ pipeline ρ this error
  end.

(** The function of [i] is not yet in the array it is about to join. *)
Definition not_registered (i : interceptor) (a : Interceptors) : Prop :=
  match i with
  | OnRequest c => cb_id c ∉ cb_id <$> request a
  | OnResponse c => cb_id c ∉ cb_id <$> response a
  | OnError c => cb_id c ∉ cb_id <$> error a
  end.

Definition is_request_call (ev : event) : bool :=
  match ev with CalledRequest _ _ _ => true | _ => false end.

(** The playground's [addAuth]: a request interceptor that appends a
    session id to the query. *)
Definition addAuth : callback Request request_ctx :=
  Callback 7 (fun req _ =>
    Resolved (mkRequest (append (req_url req) "sessionId" "22222") (req_init req))).

(** [layer.addInterceptor("request", addAuth, { signal })], signal [0]. *)
Definition auth_registry : registry :=
  addInterceptor no_registry layer (OnRequest addAuth) (Some 0).

(** ** The start script *)

(** A [package.json] as the start script reads it; [scripts] lists the
    entries in the order of [Object.entries]. *)
Record Package : Type := mkPackage {
  pkg_name : string;
  description : string;
  scripts : list (string * string);
}.

(** [k.startsWith(prefix)] *)
Definition startsWith (k prefix : string) : bool := String.prefix prefix k.

(** [k.substring(n)] *)
Fixpoint substring_from (n : nat) (k : string) : string :=
  match n, k with
  | O, _ => k
  | S n', String _ rest => substring_from n' rest
  | S _, EmptyString => EmptyString
  end.

(** An element of [tmp] in [filterScripts]. *)
Record script_entry : Type := mkEntry {
  e_key : string;
  e_value : string;
  isPre : bool;
  isPost : bool;
}.

(** [Object.fromEntries] *)
Definition Object_fromEntries {V} (entries : list (string * V)) : list (string * V) :=
  foldl (fun o kv => js_set o kv.1 kv.2) [] entries.

(** [filterScripts] *)
Definition filterScripts (scripts_ : list (string * string)) : list (string * string) :=
  let tmp :=
    (fun kv =>
       mkEntry kv.1 kv.2
         (existsb (fun kv2 => startsWith kv.1 "pre"
                              && bool_decide (substring_from 3 kv.1 = kv2.1)) scripts_)
         (existsb (fun kv2 => startsWith kv.1 "post"
                              && bool_decide (substring_from 4 kv.1 = kv2.1)) scripts_))
    <$> scripts_ in
  Object_fromEntries
    ((fun e => (e_key e, e_value e))
     <$> filter (fun e => isPre e = false) (filter (fun e => isPost e = false) tmp)).

(** [filterStartScripts(input)]; [root] is [pkg.name]. *)
Definition filterStartScripts (root : string) (input : string) (e : Package) : bool :=
  includes (pkg_name e) input
  && negb (bool_decide (pkg_name e = root))
  && bool_decide ("start" ∈ (scripts e).*1).

(** [longestScriptNameLength]; [len] is the [length] of a JavaScript
    string. *)
Definition longestScriptNameLength (len : string -> nat) (packages : list Package) : nat :=
  foldl (fun a e => if decide (a < len e)%nat then len e else a) 0%nat
        (mjoin ((fun e => (scripts e).*1) <$> packages)).

(** [fillLength = longestScriptNameLength - scriptNameLength], the count
    given to [repeat]. *)
Definition fillLength (len : string -> nat) (packages : list Package) (script : string) : Z :=
  (Z.of_nat (longestScriptNameLength len packages) - Z.of_nat (len script))%Z.

(** An element of the array literal of [formatScript]: a string, [false],
    a number or an array of strings. *)
Inductive cell : Type :=
| CStr (s : string)
| CFalse
| CNum (n : nat)
| CArr (items : list string).

(** [Boolean(cell)] *)
Definition truthy (c : cell) : bool :=
  match c with
  | CStr s => negb (bool_decide (s = ""))
  | CFalse => false
  | CNum n => negb (bool_decide (n = 0%nat))
  | CArr _ => true
  end.

(** What [flat()] makes of a cell; [join] then writes each item. *)
Definition flat_cell (c : cell) : list string :=
  match c with
  | CStr s => [s]
  | CFalse => ["false"]
  | CNum n => [pretty n]
  | CArr items => items
  end.

(** [formatScript(script = "", workspace = "", args = [""])]; [None] is
    an argument left out. *)
Definition formatScript (script workspace : option string) (args : option (list string))
  : string :=
  let script := default "" script in
  let workspace := default "" workspace in
  let args := default [""] args in
  let given := filter (fun a => a ≠ "") args in
  join " "
    (filter (fun c => truthy c = true)
       [CStr "npm"; CStr "run"; CStr script;
        if bool_decide (workspace ≠ "root") then CArr ["-w"; workspace] else CFalse;
        if bool_decide (length given = 0%nat) then CNum 0 else CArr ("--" :: args)]
     ≫= flat_cell).

(** [k] is the pre or post hook of one of [keys]: [pre] or [post]
    followed by that key. *)
Definition is_hook (keys : list string) (k : string) : bool :=
  (startsWith k "pre" && bool_decide (substring_from 3 k ∈ keys))
  || (startsWith k "post" && bool_decide (substring_from 4 k ∈ keys)).

(** A root manifest and a workspace, for the examples. *)
Definition root_scripts : list (string * string) :=
  [("start", "node scripts/start.js"); ("prestart", "npm install"); ("view", "open .");
   ("preview", "vite preview"); ("postinstall", "husky"); ("test", "vitest")].
Definition liaison_pkg : Package :=
  mkPackage "@amono/liaison" "fetch wrapper" [("start", "vite"); ("build", "tsc")].

(** ** Vocabulary of the further properties *)

Global Instance InterceptorEvent_eq_dec : EqDecision InterceptorEvent.
Proof. solve_decision. Defined.

(** How often [x] occurs in [l]. *)
Definition occurrences {A} `{EqDecision A} (x : A) (l : list A) : nat :=
  length (filter (fun y => y = x) l).

(** The identities held by the array of an event. *)
Definition ids_at (ev : InterceptorEvent) (a : Interceptors) : list nat :=
  match ev with
  | ev_request => cb_id <$> request a
  | ev_response => cb_id <$> response a
  | ev_error => cb_id <$> error a
  end.

(** How often callback [t.2] is in the array [t.1.2] at [t.1.1]. *)
Definition registered (ρ : registry) (t : loc * InterceptorEvent * nat) : nat :=
  occurrences t.2 (ids_at t.1.2 (arrays ρ !!! t.1.1)).

(** How many listeners for [t] are waiting, over all signals. *)
Definition waiting (ρ : registry) (t : loc * InterceptorEvent * nat) : nat :=
  map_fold (fun _ ls n => (n + occurrences t ls)%nat) 0%nat (listeners ρ).

(** Every waiting listener still has its callback in its array. *)
Definition covered (ρ : registry) : Prop :=
  ∀ t, (waiting ρ t ≤ registered ρ t)%nat.

(** The URL a [RequestInfo] stands for. *)
Definition info_url `{Platform} (info : RequestInfo) : option URL :=
  match info with
  | InfoString s => parse_URL s
  | InfoURL u => Some u
  | InfoRequest r => Some (req_url r)
  end.

(** The callbacks [cbs], called one after the other from [acc], each on
    what the one before resolved with, all resolve, the last with [x]. *)
Fixpoint threads {A C} (ctx : C) (cbs : list (callback A C)) (acc x : A) : Prop :=
  match cbs with
  | [] => x = acc
  | c :: rest => ∃ y, cb_run c acc ctx = Resolved y ∧ threads ctx rest y x
  end.

(** The key under which [get chain()] files the instance at position [i]. *)
Definition chain_key `{Platform} (σ : ostore) (i : nat) (e : liaison) : string :=
  pretty i +:+ "-" +:+ name_of σ e.

Definition is_response_call (ev : event) : bool :=
  match ev with CalledResponse _ _ _ => true | _ => false end.

(** What the value under a schema key throws when the getter calls it:
    something only if it is a factory that throws. *)
Definition thrown (v : option value) : option data :=
  match v with
  | Some (VFun f) => match on_zod f with Throws e => Some e | Returns _ => None end
  | _ => None
  end.

(* ================================================================== *)
(** * Properties *)

(** ** The config getter *)

Lemma extends_store_refl σ : extends_store σ σ.
Proof. by intros p _. Qed.

Lemma extends_store_total (σ σ' : ostore) p :
  extends_store σ σ' → p ∈ dom σ → σ' !!! p = σ !!! p.
Proof. intros H Hp. rewrite !lookup_total_alt. by rewrite (H p Hp). Qed.

Lemma liaison_chain_ind (P : liaison → Prop) :
  (∀ p i, P (Liaison None p i)) →
  (∀ e p i, P e → P (Liaison (Some e) p i)) →
  ∀ l, P l.
Proof.
  intros Hroot Hext. fix IH 1.
  intros [[e|] p i]; [apply Hext, IH | apply Hroot].
Qed.

Lemma closest_closest_in σ l k :
  closest σ l k = closest_in σ (l :: ancestors l) k.
Proof.
  induction l as [p i | e p i IH] using liaison_chain_ind; simpl.
  - by destruct (_ !! k).
  - destruct ((σ !!! p) !! k); [done|]. by rewrite IH.
Qed.

Lemma alloc_fresh (σ : ostore) o l σ' :
  alloc σ o = (l, σ') → (l ∉ dom σ) ∧ σ' = <[l := o]> σ.
Proof. intros [= <- <-]. split; [apply is_fresh | done]. Qed.

(** The merging loop: the resulting object maps a key to what [opts] held,
    else to the first definition among the ancestors; the objects that
    existed before are left as they were. *)
Lemma merge_loop_lookup σ k es : ∀ σ0 o0 o σ1,
  Forall (λ e, partial e ∈ dom σ) es →
  extends_store σ σ0 →
  foldl merge_under (o0, σ0) es = (o, σ1) →
  extends_store σ0 σ1 ∧
  (σ1 !!! o) !! k =
    match (σ0 !!! o0) !! k with
    | Some v => Some v
    | None => closest_in σ es k
    end.
Proof.
  induction es as [|e es IH]; intros σ0 o0 o σ1 Hal Hext Hrun; simpl in *.
  - injection Hrun as <- <-. split; [apply extends_store_refl|].
    by destruct (_ !! k).
  - apply Forall_cons in Hal as [He Hal].
    destruct (alloc σ0 (spread (σ0 !!! partial e) (σ0 !!! o0))) as [o' σ0'] eqn:Ha.
    apply alloc_fresh in Ha as [Hfr ->].
    assert (Hext' : extends_store σ0 (<[o' := spread (σ0 !!! partial e) (σ0 !!! o0)]> σ0)).
    { intros p Hp. rewrite lookup_insert_ne; [done|]. intros ->. done. }
    assert (Hext'' : extends_store σ (<[o' := spread (σ0 !!! partial e) (σ0 !!! o0)]> σ0)).
    { intros p Hp. rewrite Hext'; [by apply Hext|].
      apply elem_of_dom. rewrite (Hext p Hp). by apply elem_of_dom. }
    destruct (IH _ _ _ _ Hal Hext'' Hrun) as [H1 H2]. split.
    + intros p Hp. rewrite H1; [by apply Hext'|].
      apply elem_of_dom. rewrite (Hext' p Hp). by apply elem_of_dom.
    + rewrite H2, lookup_total_insert_eq. unfold spread.
      rewrite lookup_union.
      rewrite (extends_store_total σ σ0 (partial e)) by done.
      destruct ((σ0 !!! o0) !! k) as [v|]; simpl.
      * by destruct ((σ !!! partial e) !! k).
      * by destruct ((σ !!! partial e) !! k).
Qed.

Lemma set_prop_lookup σ o key v k :
  (set_prop σ o key v !!! o) !! k = if decide (key = k) then Some v else (σ !!! o) !! k.
Proof. unfold set_prop. by rewrite lookup_total_insert_eq, lookup_insert. Qed.

Lemma set_prop_other (σ : ostore) o key v p :
  p ≠ o → set_prop σ o key v !! p = σ !! p.
Proof. intros ?. unfold set_prop. by rewrite lookup_insert_ne. Qed.

(** One turn of the schema loop touches only [key] of [opts]. *)
Lemma normalize_key_spec σ o key r σ' :
  normalize_key (Resolved (), σ) o key = (r, σ') →
  (∀ p, p ≠ o → σ' !! p = σ !! p) ∧
  (∀ k, k ≠ key → (σ' !!! o) !! k = (σ !!! o) !! k) ∧
  (r = Resolved () → (σ' !!! o) !! key = materialized ((σ !!! o) !! key)).
Proof.
  unfold normalize_key, materialized.
  destruct (nullish ((σ !!! o) !! key)) eqn:Hn.
  - rewrite set_prop_lookup, decide_True by done.
    intros [= <- <-]. split_and!.
    + intros p ?. by apply set_prop_other.
    + intros k ?. by rewrite set_prop_lookup, decide_False.
    + intros _. by rewrite set_prop_lookup, decide_True.
  - destruct ((σ !!! o) !! key) as [[d|s|f]|] eqn:Hk; try discriminate Hn.
    + intros [= <- <-]. by rewrite Hk.
    + intros [= <- <-]. by rewrite Hk.
    + destruct (on_zod f) as [v|e]; intros [= <- <-].
      * split_and!.
        -- intros p ?. by apply set_prop_other.
        -- intros k ?. by rewrite set_prop_lookup, decide_False.
        -- intros _. by rewrite set_prop_lookup, decide_True.
      * split_and!; [done..|discriminate].
Qed.

Lemma normalize_key_rejected e σ o key :
  normalize_key (Rejected e, σ) o key = (Rejected e, σ).
Proof. done. Qed.

Lemma normalize_loop_rejected e o keys : ∀ σ,
  foldl (λ st key, normalize_key st o key) (Rejected e, σ) keys = (Rejected e, σ).
Proof. induction keys as [|key keys IH]; intros σ; cbn [foldl]; [done|apply IH]. Qed.

(** The whole schema loop, over distinct keys. *)
Lemma normalize_loop_spec o keys : ∀ σ r σ',
  NoDup keys →
  foldl (λ st key, normalize_key st o key) (Resolved (), σ) keys = (r, σ') →
  (∀ p, p ≠ o → σ' !! p = σ !! p) ∧
  (∀ k, k ∉ keys → (σ' !!! o) !! k = (σ !!! o) !! k) ∧
  (r = Resolved () →
   ∀ k, k ∈ keys → (σ' !!! o) !! k = materialized ((σ !!! o) !! k)).
Proof.
  induction keys as [|key keys IH]; intros σ r σ' Hnd Hrun; cbn [foldl] in *.
  - injection Hrun as <- <-. split_and!; [done..|]. intros _ k Hk. by apply elem_of_nil in Hk.
  - apply NoDup_cons in Hnd as [Hkey Hnd].
    destruct (normalize_key (Resolved (), σ) o key) as [r1 σ1] eqn:H1.
    apply normalize_key_spec in H1 as (Hp1 & Hk1 & Hm1).
    destruct r1 as [[]|e].
    + destruct (IH _ _ _ Hnd Hrun) as (Hp2 & Hk2 & Hm2). split_and!.
      * intros p Hp. by rewrite Hp2, Hp1.
      * intros k Hk. apply not_elem_of_cons in Hk as [??]. by rewrite Hk2, Hk1.
      * intros Hr k Hk. apply elem_of_cons in Hk as [->|Hk].
        -- rewrite Hk2 by done. by apply Hm1.
        -- rewrite (Hm2 Hr k Hk), Hk1; [done|]. by intros ->.
    + rewrite normalize_loop_rejected in Hrun. injection Hrun as <- <-.
      split_and!; [done| |discriminate].
      intros k Hk. apply not_elem_of_cons in Hk as [??]. by apply Hk1.
Qed.

Lemma schema_keys_NoDup : NoDup schema_keys.
Proof. by apply (bool_decide_unpack _). Qed.

Lemma config_unfold σ this :
  config σ this =
  let st := foldl merge_under (partial this, σ) (ancestors this) in
  let rs := foldl (λ st' key, normalize_key st' st.1 key) (Resolved (), st.2) schema_keys in
  (_ ←ₚ rs.1; Resolved st.1, rs.2).
Proof.
  unfold config. destruct (foldl merge_under _ _) as [o σ1]. cbn [fst snd].
  by destruct (foldl (λ st key, normalize_key st o key) (Resolved (), σ1) schema_keys).
Qed.

(** The two steps of the getter: the merging loop leaves in [opts] the
    closest definition of every key; the schema loop then rewrites the
    schema keys and nothing else. *)
Lemma config_stages σ this opts σ' :
  chain_allocated σ this →
  config σ this = (Resolved opts, σ') →
  ∃ σ1 : ostore,
    (∀ k, (σ1 !!! opts) !! k = closest σ this k) ∧
    (∀ k, k ∉ schema_keys → (σ' !!! opts) !! k = (σ1 !!! opts) !! k) ∧
    (∀ k, k ∈ schema_keys → (σ' !!! opts) !! k = materialized ((σ1 !!! opts) !! k)).
Proof.
  intros Hal. rewrite config_unfold. cbv zeta.
  destruct (foldl merge_under _ _) as [o σ1] eqn:Hmerge. cbn [fst snd].
  destruct (foldl (λ st key, normalize_key st o key) (Resolved (), σ1) schema_keys)
    as [r σ2] eqn:Hnorm. cbn [fst snd].
  destruct r as [[]|e]; [|discriminate]. intros [= <- <-].
  apply Forall_cons in Hal as [Hp Hal].
  apply normalize_loop_spec in Hnorm as (_ & Hother & Hmat); [|apply schema_keys_NoDup].
  exists σ1. split_and!; [|done|by apply Hmat].
  intros k.
  destruct (merge_loop_lookup σ k _ _ _ _ _ Hal (extends_store_refl σ) Hmerge) as [_ ->].
  rewrite closest_closest_in. simpl. by destruct (_ !! k).
Qed.

(** C1 (amended): closest definition wins for every key; under the three
    schema keys the getter then leaves the materialised form of that
    closest value (the accept-anything schema for a missing or nullish one,
    the result of the call for a factory). *)
Theorem config_closest_definition_wins σ this opts σ' k :
  chain_allocated σ this →
  config σ this = (Resolved opts, σ') →
  (σ' !!! opts) !! k =
    if bool_decide (k ∈ schema_keys)
    then materialized (closest σ this k)
    else closest σ this k.
Proof.
  intros Hal Hrun.
  destruct (config_stages σ this opts σ' Hal Hrun) as (σ1 & Hmerged & Hplain & Hschema).
  case_bool_decide as Hk.
  - rewrite (Hschema k Hk). by rewrite Hmerged.
  - rewrite (Hplain k Hk). apply Hmerged.
Qed.

(** C1 (counterexample): root, mid and leaf set [params] to three
    different factories; the resolved [params] is not the leaf's value but
    the schema the leaf's factory returns. *)
Lemma resolved_params_is_not_the_leaf_value :
  let resolved := (config three_store three_leaf).2 !!! 4 in
  (config three_store three_leaf).1 = Resolved 4 ∧
  closest three_store three_leaf "params" = leaf_partial !! "params" ∧
  leaf_partial !! "params" = Some (factory 3 baseParamSchema) ∧
  resolved !! "params" = Some (VSchema baseParamSchema) ∧
  resolved !! "params" ≠ closest three_store three_leaf "params".
Proof.
  cbv zeta. split_and!; by vm_compute.
Qed.

(** On the three-level chain: [method] resolves to the leaf's value, [url],
    which the leaf omits, to mid's. *)
Lemma config_closest_definition_wins_witness :
  chain_allocated three_store three_leaf ∧
  ((config three_store three_leaf).2 !!! 4) !! "method" = Some (VData (DStr "PUT")) ∧
  ((config three_store three_leaf).2 !!! 4) !! "url" = Some (VData (DStr "/mid")).
Proof.
  assert (Hal : chain_allocated three_store three_leaf).
  { apply (bool_decide_unpack _). by vm_compute. }
  assert (Hrun : config three_store three_leaf
                 = (Resolved 4, (config three_store three_leaf).2)) by (by vm_compute).
  split_and!; [done|..].
  - rewrite (config_closest_definition_wins _ _ _ _ "method" Hal Hrun). by vm_compute.
  - rewrite (config_closest_definition_wins _ _ _ _ "url" Hal Hrun). by vm_compute.
Defined.

Lemma merge_loop_fresh es : ∀ o0 (σ0 : ostore) o σ1,
  es ≠ [] → foldl merge_under (o0, σ0) es = (o, σ1) → o ∉ dom σ0.
Proof.
  induction es as [|e es IH]; intros o0 σ0 o σ1 Hne Hrun; [done|].
  cbn [foldl] in Hrun.
  destruct (merge_under (o0, σ0) e) as [o' σ0'] eqn:Ha.
  apply alloc_fresh in Ha as [Hfr ->].
  destruct es as [|e' es].
  - by injection Hrun as <- <-.
  - apply IH in Hrun; [|done]. rewrite dom_insert_L in Hrun. set_solver.
Qed.

(** The other path of the getter: on an instance that extends another,
    [opts] is a fresh object and no object that existed is written. *)
Lemma config_of_extension_leaves_store σ e p i r σ' :
  chain_allocated σ (Liaison (Some e) p i) →
  config σ (Liaison (Some e) p i) = (r, σ') →
  ∀ l, l ∈ dom σ → σ' !! l = σ !! l.
Proof.
  intros Hal. rewrite config_unfold. cbv zeta.
  destruct (foldl merge_under _ _) as [o σ1] eqn:Hmerge. cbn [fst snd].
  destruct (foldl (λ st key, normalize_key st o key) (Resolved (), σ1) schema_keys)
    as [r' σ2] eqn:Hnorm. cbn [fst snd].
  intros [= _ <-] l Hl.
  apply Forall_cons in Hal as [_ Hal].
  change (ancestors (Liaison (Some e) p i)) with (e :: ancestors e) in Hmerge, Hal.
  assert (Hfresh : o ∉ dom σ) by (eapply merge_loop_fresh; [|exact Hmerge]; done).
  destruct (merge_loop_lookup σ "" _ _ _ _ _ Hal (extends_store_refl σ) Hmerge) as [Hext _].
  apply normalize_loop_spec in Hnorm as (Hother & _ & _); [|apply schema_keys_NoDup].
  rewrite Hother; [by apply Hext|]. by intros ->.
Qed.

(** C9 (code bug): reading [config] on an instance that extends nothing
    returns the object [partial] itself and writes the three schema keys
    into it; the stored config is not what the constructor received any
    more. *)
Theorem config_getter_writes_own_partial :
  let after := (config layer_store layer).2 in
  (config layer_store layer).1 = Resolved (partial layer) ∧
  layer_store !! partial layer = Some layer_partial ∧
  after !! partial layer =
    Some (<["response" := VSchema z_unknown]>
            (<["body" := VSchema z_unknown]>
               (<["params" := VSchema z_unknown]> layer_partial))) ∧
  layer_partial !! "params" = None ∧
  after !! partial layer ≠ layer_store !! partial layer.
Proof.
  cbv zeta. split_and!; try (vm_compute; reflexivity).
  intros Heq.
  assert (Hp : ((config layer_store layer).2 !!! partial layer) !! "params"
               = (layer_store !!! partial layer) !! "params").
  { rewrite !lookup_total_alt. by rewrite Heq. }
  vm_compute in Hp. discriminate.
Qed.

(** ** The override *)

Lemma call_override_not_callable v instanceConfig :
  v ≠ DUndef → v ≠ DNull →
  call_override (Some (OverrideValue v)) instanceConfig
  = Rejected (DErr "TypeError" "callConfig.override is not a function").
Proof. intros ??. by destruct v. Qed.

(** The merge: the override fragment first, then the call config, then
    the rest of the resolved instance config. *)
Lemma merged_config_precedence (instanceConfig : obj) cc (fragment : gmap string data) k :
  merged_config instanceConfig cc fragment !! k =
    match fragment !! k with
    | Some d => Some (VData d)
    | None =>
        match members cc !! k with
        | Some d => Some (VData d)
        | None => instanceConfigRest instanceConfig !! k
        end
    end.
Proof.
  unfold merged_config, spread. rewrite !lookup_union, !lookup_fmap.
  by destruct (fragment !! k), (members cc !! k), (instanceConfigRest instanceConfig !! k).
Qed.

(** The inputs of the two validations are data: the instance config
    contributes neither key. *)
Lemma merged_inputs_are_data (instanceConfig : obj) cc (fragment : gmap string data) k :
  k = "params" ∨ k = "body" →
  merged_config instanceConfig cc fragment !! k
  = VData <$> (fragment ∪ members cc) !! k.
Proof.
  intros Hk. rewrite merged_config_precedence, lookup_union.
  assert (instanceConfigRest instanceConfig !! k = None) as ->.
  { unfold instanceConfigRest. destruct Hk as [->| ->].
    - rewrite !lookup_delete_ne by done. apply lookup_delete_eq.
    - rewrite !lookup_delete_ne by done. apply lookup_delete_eq. }
  by destruct (fragment !! k), (members cc !! k).
Qed.

(** C7 (code bug): an [override] given as an object is not used as a
    fragment: the optional call invokes it, the call rejects with a
    [TypeError] before any request is built, and nothing is sent. *)
Theorem object_override_is_called :
  @Liaison_fetch (host echo_ok) layer_store (quiet no_registry) layer (Some put_override)
  = (Rejected (DErr "TypeError" "callConfig.override is not a function"), [],
     (config layer_store layer).2).
Proof. vm_compute. reflexivity. Qed.

(** ** The two entry points *)

Lemma coerceError_Error `{Platform} e :
  instanceof_Error e = true → coerceError e = Normal e.
Proof. unfold coerceError. by intros ->. Qed.

Lemma coerceError_is_Error `{Platform} e e' :
  coerceError e = Normal e' → instanceof_Error e' = true.
Proof.
  unfold coerceError. destruct (instanceof_Error e) eqn:He.
  - by intros [= <-].
  - destruct (JSON_stringify e); [|done]. by intros [= <-].
Qed.



(** ** The status check *)

Lemma includes_prefix hay needle :
  String.prefix needle hay = true → includes hay needle = true.
Proof. intros Hp. destruct hay; cbn [includes]; by rewrite Hp. Qed.

Lemma prefix_app needle rest : String.prefix needle (needle +:+ rest) = true.
Proof.
  induction needle as [|c needle IH]; simpl; [by destruct rest|].
  by destruct (Ascii.ascii_dec c c).
Qed.

Lemma includes_app pre needle post :
  includes (pre +:+ needle +:+ post) needle = true.
Proof.
  induction pre as [|c pre IH]; simpl.
  - apply includes_prefix. exact (prefix_app needle post).
  - change (includes (String c (pre +:+ needle +:+ post)) needle = true).
    cbn [includes]. rewrite IH. apply orb_true_r.
Qed.

Lemma String_app_assoc (a b c : string) : (a +:+ b) +:+ c = a +:+ (b +:+ c).
Proof.
  induction a as [|x a IH]; [done|].
  change (String x ((a +:+ b) +:+ c) = String x (a +:+ (b +:+ c))). by rewrite IH.
Qed.

Lemma String_app_nil_r (a : string) : a +:+ "" = a.
Proof.
  induction a as [|x a IH]; [done|].
  change (String x (a +:+ "") = String x a). by rewrite IH.
Qed.

Lemma carried hay hay' needle :
  includes hay needle = true → hay = hay' → includes hay' needle = true.
Proof. by intros ? <-. Qed.

Lemma handleServerError_message res text :
  join ", " ["code: " +:+ pretty (status res); "type: " +:+ res_type res;
             "text: " +:+ dquote +:+ statusText res; "server-response: " +:+ text]
  = status_message res text.
Proof.
  unfold join, status_message. cbn [String.concat].
  by rewrite !String_app_assoc.
Qed.

(** C5 (counterexample): a [500] whose body cannot be read is rejected with
    the failure of the read; no status error comes out of it, whatever the
    body text is taken to be. *)
Lemma unreadable_body_hides_status :
  ok unreadable_500 = false ∧
  handleServerError unreadable_500 = Rejected (DErr "TypeError" "network error") ∧
  ∀ text, handleServerError unreadable_500
          ≠ Rejected (DErr "Error" (status_message unreadable_500 text)).
Proof. split_and!; [done..|]. intros text. vm_compute. discriminate. Qed.

(** C5 (amended): a response with a status in [200..299] passes through
    unchanged; any other is turned into a rejection: with an [Error] whose
    message carries the status code, the status text and the body text when
    the body can be read, and with the failure of the read otherwise. *)
Theorem handleServerError_by_status res :
  handleServerError res =
    (if bool_decide (200 ≤ status res ≤ 299)%Z then Resolved res
     else match body_text res with
          | Resolved text => Rejected (DErr "Error" (status_message res text))
          | Rejected e => Rejected e
          end) ∧
  ∀ text,
    includes (status_message res text) ("code: " +:+ pretty (status res)) = true ∧
    includes (status_message res text) (statusText res) = true ∧
    includes (status_message res text) ("server-response: " +:+ text) = true.
Proof.
  split.
  - unfold handleServerError, ok. case_bool_decide; [done|].
    destruct (body_text res) as [text|e]; cbn [settled_bind]; [|done].
    by rewrite handleServerError_message.
  - intros text. unfold status_message. split_and!.
    + eapply carried; [apply (includes_app "" _ (", type: " +:+ res_type res
             +:+ ", text: " +:+ dquote +:+ statusText res +:+ ", server-response: " +:+ text))|].
      by rewrite !String_app_assoc.
    + eapply carried; [apply (includes_app ("code: " +:+ pretty (status res)
             +:+ ", type: " +:+ res_type res +:+ ", text: " +:+ dquote) _
             (", server-response: " +:+ text))|].
      by rewrite !String_app_assoc.
    + eapply carried; [apply (includes_app ("code: " +:+ pretty (status res)
             +:+ ", type: " +:+ res_type res +:+ ", text: " +:+ dquote
             +:+ statusText res +:+ ", ") _ "")|].
      by rewrite !String_app_assoc, String_app_nil_r.
Qed.

(** ** The extension chain and its pipelines *)

Lemma append_cons c (a b : string) : String c a +:+ b = String c (a +:+ b).
Proof. done. Qed.

Lemma append_nil (b : string) : "" +:+ b = b.
Proof. done. Qed.

Lemma pretty_N_go_dash_free x : ∀ s, dash_free s → dash_free (pretty_N_go x s).
Proof.
  induction (N.lt_wf_0 x) as [x _ IH]; intros s Hs.
  assert (x = 0 ∨ 0 < x)%N as [->|?] by lia.
  - by rewrite pretty_N_go_0.
  - rewrite pretty_N_go_step by done. apply IH.
    { by apply N.div_lt. }
    split; [|done]. unfold pretty_N_char. by repeat case_match.
Qed.

Lemma pretty_nat_dash_free (i : nat) : dash_free (pretty i).
Proof.
  unfold pretty, pretty_nat, pretty, pretty_N.
  case_decide; [by split|]. by apply pretty_N_go_dash_free.
Qed.

(** Two keys [a-x] and [b-y] with dash-free [a] and [b] agree on them. *)
Lemma dash_split a : ∀ b x y,
  dash_free a → dash_free b →
  a +:+ "-" +:+ x = b +:+ "-" +:+ y → a = b.
Proof.
  induction a as [|c a IH]; intros [|d b] x y Ha Hb Heq.
  - done.
  - rewrite append_nil, append_cons in Heq. injection Heq as <- _. by destruct Hb.
  - rewrite append_nil, append_cons in Heq. injection Heq as -> _. by destruct Ha.
  - rewrite !append_cons in Heq. injection Heq as -> Heq.
    destruct Ha, Hb. f_equal. by eapply IH.
Qed.

Lemma digits_value_dash a : ∀ acc b, digits_value acc (a +:+ "-" +:+ b) = None.
Proof.
  induction a as [|c a IH]; intros acc b.
  - done.
  - rewrite append_cons. cbn [digits_value]. by destruct (is_digit c).
Qed.

(** A key of the chain object is never an array index. *)
Lemma chain_key_not_index (i : nat) name :
  array_index (pretty i +:+ "-" +:+ name) = None.
Proof.
  unfold array_index. rewrite digits_value_dash. by destruct (_ +:+ _).
Qed.

Lemma Object_values_named {V} (o : list (string * V)) :
  Forall (λ kv, array_index kv.1 = None) o → Object_values o = o.*2.
Proof.
  intros Hall. unfold Object_values.
  assert (omap (λ kv : string * V, (λ n, (n, kv.2)) <$> array_index kv.1) o = []) as ->.
  { induction Hall as [|kv o Hkv _ IH]; [done|]. cbn [omap list_omap]. by rewrite Hkv. }
  assert (filter (λ kv : string * V, array_index kv.1 = None) o = o) as ->; [|done].
  induction Hall as [|kv o Hkv _ IH]; [done|].
  by rewrite filter_cons_True, IH.
Qed.

(** Assigning fresh, pairwise distinct keys appends the entries in order. *)
Lemma foldl_js_set_fresh {X V} (key : X → string) (val : X → V) xs : ∀ acc,
  NoDup (key <$> xs) →
  (∀ x, x ∈ xs → key x ∉ acc.*1) →
  foldl (λ a x, js_set a (key x) (val x)) acc xs = acc ++ ((λ x, (key x, val x)) <$> xs).
Proof.
  induction xs as [|x xs IH]; intros acc Hnd Hfresh; cbn [foldl fmap list_fmap].
  - by rewrite app_nil_r.
  - apply NoDup_cons in Hnd as [Hx Hnd].
    unfold js_set at 2. rewrite decide_False by (apply Hfresh; left).
    rewrite IH; [by rewrite <- app_assoc|done|].
    intros x' Hx'. rewrite fmap_app. cbn. rewrite elem_of_app, list_elem_of_singleton.
    intros [Hin|Heq].
    + by apply (Hfresh x'); [right|].
    + apply Hx. rewrite <- Heq. apply list_elem_of_fmap. by exists x'.
Qed.

Lemma imap_pair_fst {A} (l : list A) : ∀ n,
  (imap (λ i x, (n + i, x)) l).*1 = seq n (length l).
Proof.
  induction l as [|x l IH]; intros n; [done|].
  cbn [imap fmap list_fmap length seq]. rewrite Nat.add_0_r. f_equal.
  rewrite <- (IH (S n)). f_equal. apply imap_ext. intros i y _. simpl. f_equal. lia.
Qed.

Lemma imap_pair_snd {A} (l : list A) : ∀ n,
  (imap (λ i x, (n + i, x)) l).*2 = l.
Proof.
  induction l as [|x l IH]; intros n; [done|].
  cbn [imap fmap list_fmap]. cbn [snd]. f_equal.
  rewrite <- (IH (S n)) at 2. f_equal. apply imap_ext. intros i y _. simpl. f_equal. lia.
Qed.

(** [Object.values(this.chain)] is the chain from the root to the instance:
    the keys written by [reduce] differ in their index prefix, and none of
    them is an array index. *)
Lemma chain_values `{Platform} σ this :
  Object_values (chain σ this) = root_to_leaf this.
Proof.
  unfold chain, root_to_leaf.
  set (l := reverse (this :: ancestors this)).
  assert (Hpair : imap pair l = imap (λ i x, (0 + i, x)) l) by done.
  rewrite (foldl_js_set_fresh (λ ie, pretty ie.1 +:+ "-" +:+ name_of σ ie.2) snd).
  - rewrite app_nil_l, Object_values_named.
    + rewrite <- list_fmap_compose. rewrite Hpair.
      rewrite <- (imap_pair_snd l 0) at 2. by apply list_fmap_ext.
    + apply Forall_fmap, Forall_forall. intros ie _. apply chain_key_not_index.
  - apply NoDup_fmap_2_strong.
    + intros [i e] [j e'] Hi Hj Heq. cbn [fst snd] in Heq.
      apply dash_split in Heq; [|apply pretty_nat_dash_free..].
      apply (inj pretty) in Heq as ->.
      apply list_elem_of_lookup in Hi as [n Hn], Hj as [m Hm].
      rewrite list_lookup_imap in Hn, Hm.
      destruct (l !! n) eqn:Hln; [|done]. destruct (l !! m) eqn:Hlm; [|done].
      simplify_eq/=. congruence.
    + apply (NoDup_fmap_1 fst). rewrite Hpair, imap_pair_fst. apply NoDup_seq.
  - intros ? _. cbn. apply not_elem_of_nil.
Qed.

Lemma getInterceptors_pipeline `{Platform} {T} σ ρ this (event : Interceptors → list T) :
  getInterceptors σ ρ this event = pipeline ρ this event.
Proof. unfold getInterceptors, pipeline. by rewrite chain_values. Qed.

Lemma pipe_rejected {A C} (ctx : C) (cbs : list (callback A C)) : ∀ r log,
  foldl (pipe_turn ctx) (Rejected r, log) cbs = (Rejected r, log).
Proof. induction cbs as [|e cbs IH]; intros r log; [done|]. apply IH. Qed.

Lemma pipe_from {A C} (ctx : C) (cbs : list (callback A C)) : ∀ x log,
  foldl (pipe_turn ctx) (Resolved x, log) cbs =
  ((run_in_order cbs x ctx).1, log ++ (run_in_order cbs x ctx).2).
Proof.
  induction cbs as [|e cbs IH]; intros x log; cbn [foldl run_in_order].
  - by rewrite app_nil_r.
  - unfold pipe_turn at 2. cbn [fst snd].
    destruct (cb_run e x ctx) as [y|r].
    + rewrite IH. destruct (run_in_order cbs y ctx) as [r' log']. cbn [fst snd].
      by rewrite <- app_assoc.
    + by rewrite pipe_rejected.
Qed.

Lemma createPipe_in_order {A C} (cbs : list (callback A C)) acc ctx :
  createPipe cbs acc ctx = run_in_order cbs acc ctx.
Proof.
  unfold createPipe. rewrite pipe_from.
  by destruct (run_in_order cbs acc ctx).
Qed.


(** ** Failures *)





(** ** Params and the query string *)

Lemma append_values `{Platform} k vs : ∀ u,
  foldl (λ url v, append url k (USVString v)) u vs
  = mkURL (href_base u) (searchParams u ++ ((λ v, (k, USVString v)) <$> vs)) (hash u).
Proof.
  induction vs as [|v vs IH]; intros [base query frag]; cbn [foldl fmap list_fmap].
  - by rewrite app_nil_r.
  - rewrite IH. unfold append. cbn. by rewrite <- app_assoc.
Qed.

Lemma append_entries `{Platform} entries : ∀ u,
  foldl (λ url kv, foldl (λ url v, append url kv.1 (USVString v)) url (flat1 kv.2)) u entries
  = mkURL (href_base u) (searchParams u ++ query_of entries) (hash u).
Proof.
  induction entries as [|kv entries IH]; intros [base query frag]; cbn [foldl].
  - unfold query_of. cbn. by rewrite app_nil_r.
  - rewrite append_values, IH. cbn [href_base searchParams hash].
    unfold query_of. cbn [mbind list_bind]. by rewrite <- app_assoc.
Qed.












(** ** A call without url *)


Lemma form_request_requests `{Platform} σ ρ this p :
  forallb is_request_call (form_request σ ρ this p).2 = true.
Proof.
  unfold form_request.
  destruct (validate p) as [[params body]|e]; [|done].
  destruct (build p params body) as [built|e]; [|done].
  destruct (createRequestPipe _ built (stack p)) as [r log].
  assert (Hlog : forallb is_request_call ((λ c, CalledRequest c.1 c.2 (stack p)) <$> log) = true).
  { clear. induction log as [|c log IH]; [done|]. by cbn. }
  by destruct r.
Qed.

Lemma receive_shape `{Platform} σ ρ this p finalRequest :
  ∃ resps, (receive σ ρ this p finalRequest).2 = CalledFetch finalRequest :: resps ∧
           forallb is_response_call resps = true.
Proof.
  unfold receive.
  destruct (res ←ₚ fetch finalRequest; handleServerError res) as [res|err].
  - destruct (createResponsePipe _ res (finalRequest, None)) as [r log]. cbn [snd].
    eexists. split; [done|].
    clear. induction log as [|c log IH]; [done|]. by cbn.
  - by exists [].
Qed.

Lemma catch_with_errors `{Platform} σ ρ this err req when stack_ :
  forallb is_error_call (catch_with σ ρ this err req when stack_).2 = true.
Proof.
  unfold catch_with. destruct (coerceError err) as [coerced|thrown]; [|done].
  destruct (createErrorPipe _ coerced _) as [r log]. cbn [snd].
  clear. induction log as [|c log IH]; [done|]. by cbn.
Qed.






(** ** Construction *)

(** A new instance keeps the config object it was given and the instance it
    extends, starts without interceptors, and leaves the arrays of the
    other instances alone. *)
Lemma new_Liaison_spec ρ extend config_ :
  let '(this, ρ') := new_Liaison ρ extend config_ in
  extends this = extend ∧ partial this = config_ ∧
  arrays ρ' !!! interceptors this = mkInterceptors [] [] [] ∧
  ∀ l, l ∈ dom (arrays ρ) → arrays ρ' !! l = arrays ρ !! l.
Proof.
  cbn. split_and!; [done..| |].
  - by rewrite lookup_total_insert_eq.
  - intros l Hl. rewrite lookup_insert_ne; [done|].
    intros <-. by apply is_fresh in Hl.
Qed.

(** ** When the pipelines are read *)

(** C6 (counterexample): a call starts while no interceptor is registered
    and [addAuth] is added during validation: the call invokes it.  A call
    starts while [addAuth] is registered and its signal fires during
    validation: the call does not invoke it. *)
Lemma pipelines_are_not_read_at_call_start :
  let late_add := timeline_of no_registry [Add layer (OnRequest addAuth) None] [] [] in
  let late_abort := timeline_of auth_registry [Abort 0] [] [] in
  existsb is_request_call
    (@Liaison_fetch (host echo_ok) layer_store (quiet no_registry) layer None).1.2 = false ∧
  existsb is_request_call
    (@Liaison_fetch (host echo_ok) layer_store late_add layer None).1.2 = true ∧
  existsb is_request_call
    (@Liaison_fetch (host echo_ok) layer_store (quiet auth_registry) layer None).1.2 = true ∧
  existsb is_request_call
    (@Liaison_fetch (host echo_ok) layer_store late_abort layer None).1.2 = false.
Proof. cbv zeta. split_and!; by vm_compute. Qed.

Lemma indexOf_pushed {A C} (c : callback A C) (array : list (callback A C)) :
  cb_id c ∉ cb_id <$> array →
  indexOf (array ++ [c]) (cb_id c) = Z.of_nat (length array).
Proof.
  induction array as [|c' array IH]; intros Hfresh.
  - cbn. by rewrite decide_True.
  - cbn [fmap list_fmap] in Hfresh. apply not_elem_of_cons in Hfresh as [Hne Hfresh].
    cbn [app indexOf]. rewrite decide_False by done. rewrite IH by done.
    rewrite decide_False by lia. cbn [length]. lia.
Qed.

Lemma splice1_last {X} (array : list X) (x : X) :
  splice1 (array ++ [x]) (Z.of_nat (length array)) = array.
Proof.
  unfold splice1. rewrite decide_False by lia.
  rewrite length_app. cbn [length].
  replace (Z.to_nat (Z.min (Z.of_nat (length array)) (Z.of_nat (length array + 1))))
    with (length array) by lia.
  rewrite take_app_length. rewrite drop_ge; [by rewrite app_nil_r|].
  rewrite length_app. cbn. lia.
Qed.

Lemma remove_pushed i a :
  not_registered i a → remove_callback (event_of i) (id_of i) (push i a) = a.
Proof.
  destruct a as [rq rs er], i as [c|c|c]; cbn; intros Hfresh;
    by rewrite indexOf_pushed, splice1_last.
Qed.

(** Firing the token of an interceptor that was registered with a fresh
    signal puts every array back as it was. *)
Lemma abort_undoes_add ρ owner i s l :
  s ∉ aborted ρ →
  listeners ρ !! s = None →
  not_registered i (arrays ρ !!! interceptors owner) →
  arrays (abort (addInterceptor ρ owner i (Some s)) s) !!! l = arrays ρ !!! l.
Proof.
  intros Hs Hl Hfresh. unfold abort, addInterceptor. cbn [aborted listeners arrays].
  rewrite decide_False by done. cbn [arrays].
  rewrite lookup_insert_eq, Hl. cbn [default from_option id app foldl fst snd].
  rewrite lookup_total_insert_eq, remove_pushed by done.
  destruct (decide (l = interceptors owner)) as [->|Hne].
  - by rewrite lookup_total_insert_eq.
  - by rewrite !lookup_total_insert_ne.
Qed.

Lemma pipeline_ext {T} ρ ρ' this (event : Interceptors → list T) :
  (∀ l, arrays ρ !!! l = arrays ρ' !!! l) → pipeline ρ this event = pipeline ρ' this event.
Proof.
  intros Heq. unfold pipeline. f_equal. apply list_fmap_ext. intros _ e _. by rewrite Heq.
Qed.

(** A call reads the registry through three pipelines only. *)
Lemma fetch_reads_three_pipelines `{Platform} σ tl tl' this config_ :
  pipeline (at_request tl) this request = pipeline (at_request tl') this request →
  pipeline (at_response tl) this response = pipeline (at_response tl') this response →
  pipeline (at_error tl) this error = pipeline (at_error tl') this error →
  Liaison_fetch σ tl this config_ = Liaison_fetch σ tl' this config_.
Proof.
  intros Hq Hr He. unfold Liaison_fetch.
  destruct (prepare σ this config_) as [[p|e] σ']; [|done].
  unfold form_request, receive, catch_with.
  by rewrite !getInterceptors_pipeline, Hq, Hr, He.
Qed.

Lemma pushed_in_pipeline ρ this owner i signal :
  owner ∈ root_to_leaf this →
  in_pipeline (addInterceptor ρ owner i signal) this i.
Proof.
  intros Howner.
  assert (Harr : arrays (addInterceptor ρ owner i signal) !!! interceptors owner
                 = push i (arrays ρ !!! interceptors owner)).
  { unfold addInterceptor. destruct signal; cbn [arrays]; by rewrite lookup_total_insert_eq. }
  destruct i as [c|c|c]; cbn [in_pipeline]; unfold pipeline;
    apply list_elem_of_join; eexists; (split; [|apply list_elem_of_fmap; eexists; split; [reflexivity|exact Howner]]);
    rewrite Harr; cbn; apply elem_of_app; right; by left.
Qed.

Lemma indexOf_first {A C} (pre post : list (callback A C)) c :
  cb_id c ∉ cb_id <$> pre →
  indexOf (pre ++ c :: post) (cb_id c) = Z.of_nat (length pre).
Proof.
  induction pre as [|c' pre IH]; intros Hfresh.
  - cbn. by rewrite decide_True.
  - cbn [fmap list_fmap] in Hfresh. apply not_elem_of_cons in Hfresh as [Hne Hfresh].
    cbn [app indexOf]. rewrite decide_False by done. rewrite IH by done.
    rewrite decide_False by lia. cbn [length]. lia.
Qed.

Lemma splice1_at {X} (pre post : list X) (x : X) :
  splice1 (pre ++ x :: post) (Z.of_nat (length pre)) = pre ++ post.
Proof.
  unfold splice1. rewrite decide_False by lia.
  rewrite length_app. cbn [length].
  replace (Z.to_nat (Z.min (Z.of_nat (length pre)) (Z.of_nat (length pre + S (length post)))))
    with (length pre) by lia.
  rewrite take_app_length.
  replace (S (length pre)) with (length (pre ++ [x])) by (rewrite length_app; cbn; lia).
  by rewrite (cons_middle x pre post), app_assoc, drop_app_length.
Qed.

Lemma abort_single_listener ρ s at_ ev fn l :
  s ∉ aborted ρ →
  listeners ρ !! s = Some [(at_, ev, fn)] →
  arrays (abort ρ s) !!! l
  = if decide (l = at_) then remove_callback ev fn (arrays ρ !!! l) else arrays ρ !!! l.
Proof.
  intros Hs Hl. unfold abort. rewrite decide_False by done. cbn [arrays].
  rewrite Hl. cbn [default from_option id foldl fst snd].
  case_decide as Hat.
  - subst. by rewrite lookup_total_insert_eq.
  - by rewrite lookup_total_insert_ne.
Qed.

Lemma splice_first_id {A C} (array : list (callback A C)) id pre post :
  cb_id <$> array = pre ++ id :: post →
  id ∉ pre →
  cb_id <$> splice1 array (indexOf array id) = pre ++ post.
Proof.
  intros Hids Hfresh.
  apply fmap_app_inv in Hids as (apre & rest & -> & Hrest & ->).
  symmetry in Hrest. apply fmap_cons_inv in Hrest as (c & apost & -> & -> & ->).
  rewrite indexOf_first, splice1_at by done. by rewrite fmap_app.
Qed.

(** C6 (amended): a pipeline is built from the arrays as they are when its
    stage starts, not when the call starts.  What a call does depends on the
    registry through the three pipelines only, each as it is at its own
    moment, so a change made after a pipeline is built does not reach the
    call and one made before it does: an interceptor is in every pipeline
    built after it was added.  When the token it was registered with fires,
    a token used for this registration only, the first occurrence of its
    function leaves its array and nothing else changes.  So if the function
    was not in the array when it was registered, firing the token right
    away puts every pipeline back and a new call runs as if the interceptor
    had never been registered; if the function was there already, the
    earlier occurrence is the one that goes. *)
Theorem pipelines_are_read_stage_by_stage `{Platform} σ tl tl' this config_
  ρ owner i s :
  pipeline (at_request tl) this request = pipeline (at_request tl') this request →
  pipeline (at_response tl) this response = pipeline (at_response tl') this response →
  pipeline (at_error tl) this error = pipeline (at_error tl') this error →
  owner ∈ root_to_leaf this →
  (s ∉ aborted ρ) →
  listeners ρ !! s = None →
  let ρ1 := addInterceptor ρ owner i (Some s) in
  Liaison_fetch σ tl this config_ = Liaison_fetch σ tl' this config_ ∧
  in_pipeline ρ1 this i ∧
  listeners ρ1 !! s = Some [(interceptors owner, event_of i, id_of i)] ∧
  (∀ ρ' pre post,
     (s ∉ aborted ρ') →
     listeners ρ' !! s = Some [(interceptors owner, event_of i, id_of i)] →
     ids_at (event_of i) (arrays ρ' !!! interceptors owner) = pre ++ id_of i :: post →
     (id_of i ∉ pre) →
     ids_at (event_of i) (arrays (abort ρ' s) !!! interceptors owner) = pre ++ post ∧
     ∀ l ev, l ≠ interceptors owner ∨ ev ≠ event_of i →
             ids_at ev (arrays (abort ρ' s) !!! l) = ids_at ev (arrays ρ' !!! l)) ∧
  (not_registered i (arrays ρ !!! interceptors owner) →
   (∀ T (event : Interceptors → list T),
      pipeline (abort ρ1 s) this event = pipeline ρ this event) ∧
   Liaison_fetch σ (quiet (abort ρ1 s)) this config_ = Liaison_fetch σ (quiet ρ) this config_).
Proof.
  intros Hq Hr He Howner Hs Hl. cbv zeta. split_and!.
  - by apply fetch_reads_three_pipelines.
  - by apply pushed_in_pipeline.
  - unfold addInterceptor. cbn [listeners]. by rewrite lookup_insert_eq, Hl.
  - intros ρ' pre post Hs' Hl' Hids Hfresh. split.
    + rewrite (abort_single_listener ρ' s _ _ _ _ Hs' Hl'), decide_True by done.
      destruct (event_of i); cbn [ids_at remove_callback request response error] in *;
        by apply splice_first_id.
    + intros l ev Hother.
      rewrite (abort_single_listener ρ' s _ _ _ _ Hs' Hl').
      case_decide as Hat; [|done]. destruct Hother as [?|Hev]; [done|].
      by destruct (event_of i), ev.
  - intros Hfresh. split.
    + intros T event. apply pipeline_ext. intros l. by apply abort_undoes_add.
    + apply fetch_reads_three_pipelines; cbn [quiet at_request at_response at_error];
        apply pipeline_ext; intros l; by apply abort_undoes_add.
Qed.

(** [addAuth] registered with signal [0]: a call whose request pipe was
    built before the signal fires runs as if it had not fired; a call
    started after it runs as if [addAuth] had never been added.  With
    [addAuth] registered before, without signal, the array holds it twice
    and once again after the signal. *)
Lemma pipelines_are_read_stage_by_stage_witness :
  let abort_in_flight := timeline_of auth_registry [] [Abort 0] [] in
  let twice := addInterceptor (addInterceptor no_registry layer (OnRequest addAuth) None)
                              layer (OnRequest addAuth) (Some 0) in
  @Liaison_fetch (host echo_ok) layer_store abort_in_flight layer None
  = @Liaison_fetch (host echo_ok) layer_store (quiet auth_registry) layer None ∧
  in_pipeline auth_registry layer (OnRequest addAuth) ∧
  ids_at ev_request (arrays twice !!! 0) = [7; 7] ∧
  ids_at ev_request (arrays (abort twice 0) !!! 0) = [7] ∧
  (∀ T (event : Interceptors → list T),
     pipeline (abort auth_registry 0) layer event = pipeline no_registry layer event) ∧
  @Liaison_fetch (host echo_ok) layer_store (quiet (abort auth_registry 0)) layer None
  = @Liaison_fetch (host echo_ok) layer_store (quiet no_registry) layer None.
Proof.
  cbv zeta.
  destruct (@pipelines_are_read_stage_by_stage (host echo_ok) layer_store
              (timeline_of auth_registry [] [Abort 0] []) (quiet auth_registry) layer None
              no_registry layer (OnRequest addAuth) 0)
    as (Hsame & Hin & _ & Hfirst & Hundo).
  - by vm_compute.
  - by vm_compute.
  - by vm_compute.
  - by left.
  - apply (bool_decide_unpack _). by vm_compute.
  - by vm_compute.
  - destruct Hundo as [Hpipes Hnew].
    { apply (bool_decide_unpack _). by vm_compute. }
    destruct (Hfirst (addInterceptor (addInterceptor no_registry layer (OnRequest addAuth) None)
                                     layer (OnRequest addAuth) (Some 0)) [] [7])
      as [Hleft _].
    + apply (bool_decide_unpack _). by vm_compute.
    + by vm_compute.
    + by vm_compute.
    + apply not_elem_of_nil.
    + split_and!; [exact Hsame|exact Hin|by vm_compute|exact Hleft|exact Hpipes|exact Hnew].
Defined.

(* ================================================================== *)
(** * Further properties *)

(** ** Error coercion and unwrapping *)

(** X1: when [coerceError] returns, it returns an [Error] on which it
    would return the same again: its argument if that is an [Error], and
    otherwise a new [Error], different from the argument, whose message is
    what [JSON.stringify] returned for it (empty for [undefined]).  It
    throws exactly when the argument is not an [Error] and
    [JSON.stringify] throws on it, and then what that threw. *)
Theorem coerceError_fixes_exactly_errors `{Platform} e :
  match coerceError e with
  | Normal e' =>
      instanceof_Error e' = true ∧ coerceError e' = Normal e' ∧
      if instanceof_Error e then e' = e
      else e' ≠ e ∧
           ∃ text, JSON_stringify e = Normal text ∧ e' = DErr "Error" (default "" text)
  | Throw thrown => instanceof_Error e = false ∧ JSON_stringify e = Throw thrown
  end.
Proof.
  destruct (coerceError e) as [e'|thrown] eqn:Hcoerce.
  - pose proof (coerceError_is_Error e e' Hcoerce) as Herr.
    split_and!; [done|by apply coerceError_Error|].
    unfold coerceError in Hcoerce. destruct (instanceof_Error e) eqn:He.
    + by injection Hcoerce as <-.
    + destruct (JSON_stringify e) as [text|]; [|done]. injection Hcoerce as <-.
      split; [|by exists text]. intros <-. discriminate.
  - unfold coerceError in Hcoerce. destruct (instanceof_Error e); [done|].
    by destruct (JSON_stringify e) as [text|t]; simplify_eq.
Qed.

(** X2: [unwrapRespone] reads the body as JSON whenever the content type
    contains [application/json], wherever in the header value, and as text
    when there is no content-type header. *)
Theorem unwrapRespone_by_content_type st tx ty bt bj pre post :
  unwrapRespone (mkResponse st tx ty (Some (pre +:+ "application/json" +:+ post)) bt bj) = bj ∧
  unwrapRespone (mkResponse st tx ty None bt bj) = (t ←ₚ bt; Resolved (DStr t)).
Proof.
  split.
  - unfold unwrapRespone. cbn [content_type default from_option id body_json].
    by rewrite includes_app.
  - done.
Qed.

(** ** Pipes *)

(** X3: the pipe of a concatenation is the pipe of the first list followed,
    on its output, by the pipe of the second; a rejection in the first stops
    there; the pipe of no callback resolves to its input. *)
Theorem createPipe_composes {A C} (cbs1 cbs2 : list (callback A C)) acc ctx :
  createPipe [] acc ctx = (Resolved acc, []) ∧
  createPipe (cbs1 ++ cbs2) acc ctx =
    match createPipe cbs1 acc ctx with
    | (Resolved x, log1) =>
        ((createPipe cbs2 x ctx).1, log1 ++ (createPipe cbs2 x ctx).2)
    | (Rejected e, log1) => (Rejected e, log1)
    end.
Proof.
  split; [done|]. unfold createPipe. rewrite foldl_app.
  destruct (foldl (pipe_turn ctx) (Resolved acc, []) cbs1) as [[x|e] log1].
  - by rewrite !pipe_from.
  - apply pipe_rejected.
Qed.

(** X4: a pipe calls the callbacks in list order, each at most once and
    each on what the one before resolved with.  It resolves when all of
    them resolve, with what the last resolved with.  It rejects at the
    first callback that rejects, all those before it having resolved: that
    one is the last called, and none after it is. *)
Theorem createPipe_stops_at_rejection {A C} (cbs : list (callback A C)) acc ctx :
  match createPipe cbs acc ctx with
  | (Resolved x, log) => threads ctx cbs acc x ∧ log.*1 = cb_id <$> cbs
  | (Rejected e, log) =>
      ∃ called c rest x,
        cbs = called ++ c :: rest ∧
        threads ctx called acc x ∧
        cb_run c x ctx = Rejected e ∧
        log.*1 = cb_id <$> (called ++ [c]) ∧
        last log = Some (cb_id c, x)
  end.
Proof.
  rewrite createPipe_in_order. revert acc.
  induction cbs as [|c cbs IH]; intros acc; cbn [run_in_order]; [done|].
  destruct (cb_run c acc ctx) as [y|e] eqn:Hrun.
  - specialize (IH y). destruct (run_in_order cbs y ctx) as [[x|e] log].
    + destruct IH as [Hthreads Hids]. split; [by exists y|]. cbn. by rewrite Hids.
    + destruct IH as (called & c' & rest & x' & -> & Hthreads & Hrej & Hids & Hlast).
      exists (c :: called), c', rest, x'.
      split_and!; [done|by exists y|done|cbn; by rewrite Hids|].
      destruct log; [done|]. by cbn in *.
  - exists [], c, cbs, acc. by split_and!.
Qed.

(** ** The chain object *)

Lemma chain_keys_distinct `{Platform} σ (l : list liaison) :
  NoDup ((λ ie : nat * liaison, chain_key σ ie.1 ie.2) <$> imap pair l).
Proof.
  assert (Hpair : imap pair l = imap (λ i x, (0 + i, x)) l) by done.
  apply NoDup_fmap_2_strong.
  - intros [i e] [j e'] Hi Hj Heq. cbn [fst snd] in Heq. unfold chain_key in Heq.
    apply dash_split in Heq; [|apply pretty_nat_dash_free..].
    apply (inj pretty) in Heq as ->.
    apply list_elem_of_lookup in Hi as [n Hn], Hj as [m Hm].
    rewrite list_lookup_imap in Hn, Hm.
    destruct (l !! n) eqn:Hln; [|done]. destruct (l !! m) eqn:Hlm; [|done].
    simplify_eq/=. congruence.
  - apply (NoDup_fmap_1 fst). rewrite Hpair, imap_pair_fst. apply NoDup_seq.
Qed.

(** X5: the object [chain] has one entry per instance of the extension
    chain, root first, under the key index-name; instances with the same
    name do not overwrite each other, the keys being pairwise distinct. *)
Theorem chain_lists_every_instance_once `{Platform} σ this :
  chain σ this
  = (λ ie : nat * liaison, (chain_key σ ie.1 ie.2, ie.2)) <$> imap pair (root_to_leaf this) ∧
  NoDup (chain σ this).*1 ∧
  length (chain σ this) = S (length (ancestors this)).
Proof.
  assert (Hchain : chain σ this
    = (λ ie : nat * liaison, (chain_key σ ie.1 ie.2, ie.2)) <$> imap pair (root_to_leaf this)).
  { unfold chain, root_to_leaf.
    rewrite (foldl_js_set_fresh (λ ie, pretty ie.1 +:+ "-" +:+ name_of σ ie.2) snd).
    - done.
    - apply (chain_keys_distinct σ).
    - intros ? _. cbn. apply not_elem_of_nil. }
  split_and!; [done| |].
  - rewrite Hchain, <- list_fmap_compose. apply chain_keys_distinct.
  - rewrite Hchain, length_fmap, length_imap. unfold root_to_leaf.
    by rewrite length_reverse.
Qed.

(** ** Registering and removing interceptors *)

Lemma pipeline_ext_event {T} ρ ρ' this (event : Interceptors → list T) :
  (∀ e, e ∈ root_to_leaf this →
        event (arrays ρ !!! interceptors e) = event (arrays ρ' !!! interceptors e)) →
  pipeline ρ this event = pipeline ρ' this event.
Proof.
  intros Heq. unfold pipeline. f_equal. apply list_fmap_ext.
  intros n e Hn. apply Heq. by eapply list_elem_of_lookup_2.
Qed.

Lemma addInterceptor_arrays ρ owner i signal l :
  arrays (addInterceptor ρ owner i signal) !!! l
  = if decide (l = interceptors owner) then push i (arrays ρ !!! l) else arrays ρ !!! l.
Proof.
  unfold addInterceptor. destruct signal; cbn [arrays]; case_decide as Hl.
  - subst. by rewrite lookup_total_insert_eq.
  - by rewrite lookup_total_insert_ne.
  - subst. by rewrite lookup_total_insert_eq.
  - by rewrite lookup_total_insert_ne.
Qed.

(** X6: registering an interceptor on an instance changes no pipeline of
    an instance whose chain does not contain it: the interceptors of an
    extension never run for the instance it extends. *)
Theorem addInterceptor_elsewhere {T} ρ owner i signal this (event : Interceptors → list T) :
  (interceptors owner ∉ interceptors <$> root_to_leaf this) →
  pipeline (addInterceptor ρ owner i signal) this event = pipeline ρ this event.
Proof.
  intros Hout. apply pipeline_ext_event. intros e He.
  rewrite addInterceptor_arrays, decide_False; [done|].
  intros Heq. apply Hout. rewrite <- Heq. apply list_elem_of_fmap. by exists e.
Qed.

(** Adding to the leaf of the three-level chain leaves the pipelines of
    [three_mid] as they were. *)
Lemma addInterceptor_elsewhere_witness :
  pipeline (addInterceptor no_registry three_leaf (OnRequest addAuth) None) three_mid request
  = pipeline no_registry three_mid request.
Proof.
  apply (addInterceptor_elsewhere no_registry three_leaf (OnRequest addAuth) None three_mid).
  apply (bool_decide_unpack _). by vm_compute.
Defined.

(** X7: registering an interceptor for one event changes no pipeline of
    the two other events, for any instance. *)
Theorem addInterceptor_other_events ρ owner i signal this :
  let ρ' := addInterceptor ρ owner i signal in
  match i with
  | OnRequest _ =>
      pipeline ρ' this response = pipeline ρ this response ∧
      pipeline ρ' this error = pipeline ρ this error
  | OnResponse _ =>
      pipeline ρ' this request = pipeline ρ this request ∧
      pipeline ρ' this error = pipeline ρ this error
  | OnError _ =>
      pipeline ρ' this request = pipeline ρ this request ∧
      pipeline ρ' this response = pipeline ρ this response
  end.
Proof.
  cbv zeta.
  destruct i as [c|c|c]; split; apply pipeline_ext_event; intros e _;
    rewrite addInterceptor_arrays; by case_decide.
Qed.

(** X8: an interceptor registered on an instance that shares its
    interceptors object with none of its ancestors comes last in the
    pipeline of that instance. *)
Theorem addInterceptor_runs_last ρ this i signal :
  (interceptors this ∉ interceptors <$> ancestors this) →
  let ρ' := addInterceptor ρ this i signal in
  match i with
  | OnRequest c => pipeline ρ' this request = pipeline ρ this request ++ [c]
  | OnResponse c => pipeline ρ' this response = pipeline ρ this response ++ [c]
  | OnError c => pipeline ρ' this error = pipeline ρ this error ++ [c]
  end.
Proof.
  intros Hown. cbv zeta.
  assert (Hsplit : ∀ T (event : Interceptors → list T) ρ0,
    pipeline ρ0 this event
    = mjoin ((λ e, event (arrays ρ0 !!! interceptors e)) <$> reverse (ancestors this))
      ++ event (arrays ρ0 !!! interceptors this)).
  { intros T event ρ0. unfold pipeline, root_to_leaf.
    rewrite reverse_cons, fmap_app, join_app. cbn. by rewrite app_nil_r. }
  assert (Hanc : ∀ T (event : Interceptors → list T),
    (λ e, event (arrays (addInterceptor ρ this i signal) !!! interceptors e))
      <$> reverse (ancestors this)
    = (λ e, event (arrays ρ !!! interceptors e)) <$> reverse (ancestors this)).
  { intros T event. apply list_fmap_ext. intros n e Hn.
    rewrite addInterceptor_arrays, decide_False; [done|].
    intros Heq. apply Hown. rewrite <- Heq. apply list_elem_of_fmap. exists e.
    split; [done|]. apply elem_of_reverse. by eapply list_elem_of_lookup_2. }
  destruct i as [c|c|c]; rewrite !Hsplit, Hanc, addInterceptor_arrays, decide_True by done;
    cbn; by rewrite app_assoc.
Qed.

(** [addAuth] added to the leaf of the three-level chain. *)
Lemma addInterceptor_runs_last_witness :
  pipeline (addInterceptor tagging_registry three_leaf (OnRequest addAuth) None)
           three_leaf request
  = pipeline tagging_registry three_leaf request ++ [addAuth].
Proof.
  apply (addInterceptor_runs_last tagging_registry three_leaf (OnRequest addAuth) None).
  apply (bool_decide_unpack _). by vm_compute.
Defined.






(** ** The config getter, further *)

Lemma normalize_key_thrown σ o key :
  (normalize_key (Resolved (), σ) o key).1
  = match thrown ((σ !!! o) !! key) with Some e => Rejected e | None => Resolved () end.
Proof.
  unfold normalize_key, thrown.
  destruct (nullish ((σ !!! o) !! key)) eqn:Hn.
  - rewrite set_prop_lookup, decide_True by done.
    by destruct ((σ !!! o) !! key) as [[[]| |]|].
  - destruct ((σ !!! o) !! key) as [[d|s|f]|]; try done.
    by destruct (on_zod f).
Qed.

Lemma omap_ext_in {X Y} (f g : X → option Y) (l : list X) :
  (∀ x, x ∈ l → f x = g x) → omap f l = omap g l.
Proof.
  induction l as [|x l IH]; intros Heq; [done|]. cbn.
  rewrite (Heq x) by left. rewrite IH; [done|]. intros y Hy. apply Heq. by right.
Qed.

Lemma normalize_loop_thrown o keys : ∀ σ,
  NoDup keys →
  (foldl (λ st key, normalize_key st o key) (Resolved (), σ) keys).1
  = match head (omap (λ k, thrown ((σ !!! o) !! k)) keys) with
    | Some e => Rejected e
    | None => Resolved ()
    end.
Proof.
  induction keys as [|key keys IH]; intros σ Hnd; [done|].
  apply NoDup_cons in Hnd as [Hkey Hnd]. cbn [foldl omap list_omap].
  pose proof (normalize_key_thrown σ o key) as Hfirst.
  destruct (normalize_key (Resolved (), σ) o key) as [r1 σ1] eqn:H1. cbn [fst] in Hfirst.
  apply normalize_key_spec in H1 as (_ & Hother & _).
  destruct (thrown ((σ !!! o) !! key)) as [e|]; subst r1.
  - by rewrite normalize_loop_rejected.
  - rewrite IH by done.
    rewrite (omap_ext_in (λ k, thrown ((σ1 !!! o) !! k)) (λ k, thrown ((σ !!! o) !! k)));
      [done|].
    intros k Hk. cbn beta. rewrite Hother; [done|]. by intros ->.
Qed.

(** X11: on an instance that extends another, where the getter works on
    an object of its own making, it throws exactly when the closest
    definition of a schema key is a factory that throws, and then what the
    first such factory threw, in the order params, body, response;
    otherwise it returns. *)
Theorem config_rejects_with_first_factory_error σ this :
  extends this ≠ None →
  chain_allocated σ this →
  match head (omap (λ k, thrown (closest σ this k)) schema_keys) with
  | Some e => (config σ this).1 = Rejected e
  | None => is_resolved (config σ this).1 = true
  end.
Proof.
  intros _ Hal. rewrite config_unfold. cbv zeta.
  destruct (foldl merge_under _ _) as [o σ1] eqn:Hmerge. cbn [fst snd].
  rewrite normalize_loop_thrown by apply schema_keys_NoDup.
  apply Forall_cons in Hal as [Hp Hal].
  assert (Hclosest : ∀ k, (σ1 !!! o) !! k = closest σ this k).
  { intros k.
    destruct (merge_loop_lookup σ k _ _ _ _ _ Hal (extends_store_refl σ) Hmerge) as [_ ->].
    rewrite closest_closest_in. simpl. by destruct (_ !! k). }
  rewrite (omap_ext_in (λ k, thrown ((σ1 !!! o) !! k)) (λ k, thrown (closest σ this k)))
    by (intros k _; cbn beta; by rewrite Hclosest).
  by destruct (head _).
Qed.

(** On the three-level chain no factory throws: the getter returns.  On
    an extension whose [body] factory throws, it throws the same. *)
Lemma config_rejects_with_first_factory_error_witness :
  is_resolved (config three_store three_leaf).1 = true ∧
  (config failing_store failing_leaf).1 = Rejected (DStr "no body schema").
Proof.
  split.
  - apply (config_rejects_with_first_factory_error three_store three_leaf); [done|].
    apply (bool_decide_unpack _). by vm_compute.
  - apply (config_rejects_with_first_factory_error failing_store failing_leaf); [done|].
    apply (bool_decide_unpack _). by vm_compute.
Defined.

(** X12: the getter writes no object that existed, except the [partial]
    of an instance that extends nothing, and of that one only the three
    schema keys. *)
Theorem config_writes_schema_keys_of_a_root_only σ this l :
  chain_allocated σ this →
  l ∈ dom σ →
  (l ≠ partial this ∨ extends this ≠ None → (config σ this).2 !! l = σ !! l) ∧
  (∀ k, k ∉ schema_keys → ((config σ this).2 !!! l) !! k = (σ !!! l) !! k).
Proof.
  intros Hal Hl. destruct this as [[e|] p i].
  - assert (Hsame : (config σ (Liaison (Some e) p i)).2 !! l = σ !! l).
    { eapply config_of_extension_leaves_store; [done| |done]. apply surjective_pairing. }
    split; [done|]. intros k _. by rewrite !lookup_total_alt, Hsame.
  - rewrite config_unfold. cbv zeta. cbn [ancestors foldl fst snd partial extends].
    destruct (foldl (λ st key, normalize_key st p key) (Resolved (), σ) schema_keys)
      as [r σ2] eqn:Hnorm. cbn [snd].
    apply normalize_loop_spec in Hnorm as (Hother & Hkeys & _); [|apply schema_keys_NoDup].
    split.
    + intros [Hne|Hext]; [by apply Hother|done].
    + intros k Hk. destruct (decide (l = p)) as [->|Hne]; [by apply Hkeys|].
      by rewrite !lookup_total_alt, Hother.
Qed.

(** The [name] of [layer], which extends nothing, after reading its config. *)
Lemma config_writes_schema_keys_of_a_root_only_witness :
  ((config layer_store layer).2 !!! partial layer) !! "name"
  = (layer_store !!! partial layer) !! "name".
Proof.
  apply (config_writes_schema_keys_of_a_root_only layer_store layer (partial layer)).
  - apply (bool_decide_unpack _). by vm_compute.
  - apply (bool_decide_unpack _). by vm_compute.
  - apply (bool_decide_unpack _). by vm_compute.
Defined.

(** ** [setUrlParams] and [baseParamSchema], further *)

Lemma setUrlParams_closed `{Platform} info params :
  setUrlParams info params
  = match info with
    | InfoString s =>
        match parse_URL s with
        | Some u =>
            match init_error ∅ with
            | Some msg => Rejected (DErr "TypeError" msg)
            | None => Resolved (mkRequest
                (mkURL (href_base u) (searchParams u ++ query_of params) (hash u)) ∅)
            end
        | None => Rejected (DErr "TypeError" ("Failed to parse URL from " +:+ s))
        end
    | InfoURL u | InfoRequest (mkRequest u _) =>
        match init_error ∅ with
        | Some msg => Rejected (DErr "TypeError" msg)
        | None => Resolved (mkRequest
            (mkURL (href_base u) (searchParams u ++ query_of params) (hash u)) ∅)
        end
    end.
Proof.
  unfold setUrlParams, new_Request.
  destruct info as [s|u|[u init]]; cbn [settled_bind fst snd req_url req_init].
  - destruct (parse_URL s) as [u|]; [|done]. cbn [settled_bind fst snd].
    destruct (init_error ∅); [done|]. cbn [settled_bind req_url].
    rewrite append_entries. unfold spread. by rewrite (left_id_L ∅ (∪)).
  - destruct (init_error ∅); [done|]. cbn [settled_bind req_url].
    rewrite append_entries. unfold spread. by rewrite (left_id_L ∅ (∪)).
  - destruct (init_error ∅); [done|]. cbn [settled_bind req_url].
    rewrite append_entries. unfold spread. by rewrite (left_id_L ∅ (∪)).
Qed.

(** X13: whatever the input, a request that [setUrlParams] returns has the
    URL of the input with the parameters appended after those it had, and
    nothing else: the members of an input request (method, headers, body)
    are not carried over. *)
Theorem setUrlParams_keeps_the_url_only `{Platform} info params r :
  setUrlParams info params = Resolved r →
  ∃ u, info_url info = Some u ∧
       r = mkRequest (mkURL (href_base u) (searchParams u ++ query_of params) (hash u)) ∅.
Proof.
  rewrite setUrlParams_closed. unfold info_url.
  destruct info as [s|u|[u init]]; cbn [req_url].
  - destruct (parse_URL s) as [u|]; [|done].
    destruct (init_error ∅); [done|]. intros [= <-]. by exists u.
  - destruct (init_error ∅); [done|]. intros [= <-]. by exists u.
  - destruct (init_error ∅); [done|]. intros [= <-]. by exists u.
Qed.

(** An [id] appended to the [POST] request: the method is gone. *)
Lemma setUrlParams_keeps_the_url_only_witness :
  @setUrlParams (host echo_ok) (InfoRequest post_user) [("id", DStr "42")]
  = Resolved (mkRequest (mkURL "/user" [("a", "1"); ("id", "42")] "") ∅).
Proof.
  destruct (@setUrlParams (host echo_ok) (InfoRequest post_user) [("id", DStr "42")])
    as [r|e] eqn:Hset; [|by vm_compute in Hset].
  destruct (@setUrlParams_keeps_the_url_only (host echo_ok) _ _ r Hset) as (u & Hu & ->).
  injection Hu as <-. reflexivity.
Defined.

(** X14: appending two records one after the other, the second to the
    request the first call returned, is appending their concatenation. *)
Theorem setUrlParams_twice `{Platform} info params1 params2 :
  (r ←ₚ setUrlParams info params1; setUrlParams (InfoRequest r) params2)
  = setUrlParams info (params1 ++ params2).
Proof.
  rewrite !(setUrlParams_closed info).
  assert (Hquery : ∀ q, (q ++ query_of params1) ++ query_of params2
                        = q ++ query_of (params1 ++ params2)).
  { intros q. unfold query_of. by rewrite bind_app, app_assoc. }
  destruct info as [s|u|[u init]].
  - destruct (parse_URL s) as [u|]; [|done].
    destruct (init_error ∅) eqn:Hinit; [done|]. cbn [settled_bind].
    rewrite setUrlParams_closed, Hinit. cbn [href_base searchParams hash].
    by rewrite Hquery.
  - destruct (init_error ∅) eqn:Hinit; [done|]. cbn [settled_bind].
    rewrite setUrlParams_closed, Hinit. cbn [href_base searchParams hash].
    by rewrite Hquery.
  - destruct (init_error ∅) eqn:Hinit; [done|]. cbn [settled_bind].
    rewrite setUrlParams_closed, Hinit. cbn [href_base searchParams hash].
    by rewrite Hquery.
Qed.

(** X15: [baseParamSchema] accepts what it produces and leaves it as it is:
    piping it into itself changes nothing. *)
Theorem baseParamSchema_idempotent v :
  pipe baseParamSchema baseParamSchema v = baseParamSchema v.
Proof.
  unfold pipe. destruct v as [| | | | | |entries| |]; try done.
  cbn [baseParamSchema].
  by destruct (forallb (λ kv : string * data, param_value_ok kv.2) entries) eqn:Hall;
    cbn [baseParamSchema]; rewrite ?Hall.
Qed.

(** ** The stages of a call *)

(** X16: what a call does comes in stages that never interleave: request
    interceptors, then at most one transport call, then response
    interceptors, then error interceptors.  No response interceptor runs
    without the transport having been called; a call that resolves has
    called the transport exactly once and no error interceptor. *)
Theorem call_stages_in_order `{Platform} σ tl this config_ :
  ∃ reqs sent resps errs,
    (Liaison_fetch σ tl this config_).1.2 = reqs ++ sent ++ resps ++ errs ∧
    forallb is_request_call reqs = true ∧
    forallb is_fetch_call sent = true ∧ (length sent ≤ 1)%nat ∧
    forallb is_response_call resps = true ∧
    forallb is_error_call errs = true ∧
    (sent = [] → resps = []) ∧
    (is_resolved (go σ tl this config_) = true → length sent = 1%nat ∧ errs = []).
Proof.
  unfold go, Liaison_fetch.
  destruct (prepare σ this config_) as [[p|e] σ'].
  2:{ exists [], [], [], []. split_and!; cbn; first [done | lia | by intros []]. }
  pose proof (form_request_requests σ' (at_request tl) this p) as Hreqs.
  destruct (form_request σ' (at_request tl) this p) as [[formed current] log1].
  cbn [snd] in Hreqs.
  destruct formed as [finalRequest|err].
  - destruct (receive_shape σ' (at_response tl) this p finalRequest) as (resps & Hlog2 & Hresps).
    destruct (receive σ' (at_response tl) this p finalRequest) as [received log2].
    cbn [snd] in Hlog2. subst log2.
    destruct received as [v|err].
    + exists log1, [CalledFetch finalRequest], resps, []. cbn [fst snd].
      rewrite app_nil_r. split_and!; cbn; first [done | lia | by intros []].
    + pose proof (catch_with_errors σ' (at_error tl) this err finalRequest "response" (stack p))
        as Herrs.
      destruct (catch_with σ' (at_error tl) this err finalRequest "response" (stack p))
        as [e log3]. cbn [snd] in Herrs.
      exists log1, [CalledFetch finalRequest], resps, log3. cbn [fst snd].
      split_and!; cbn; first [done | lia | by intros []].
  - pose proof (catch_with_errors σ' (at_error tl) this err current "request" (stack p))
      as Herrs.
    destruct (catch_with σ' (at_error tl) this err current "request" (stack p))
      as [e log2]. cbn [snd] in Herrs.
    exists log1, [], [], log2. cbn [fst snd]. split_and!; cbn; first [done | lia | by intros []].
Qed.

(** ** What a call config can change *)

Lemma prepare_schemas `{Platform} σ this config_ p σ' :
  prepare σ this config_ = (Resolved p, σ') →
  ∃ opts, config σ this = (Resolved opts, σ') ∧
    (σ' !!! opts) !! "params" = Some (VSchema (paramSchema p)) ∧
    (σ' !!! opts) !! "body" = Some (VSchema (bodySchema p)) ∧
    responseSchema p = (σ' !!! opts) !! "response" ∧
    handleResponse p = (σ' !!! opts) !! "handleResponse" ∧
    ∃ fragment,
      call_override (override (default (mkCallConfig ∅ None) config_)) (σ' !!! opts)
      = Resolved fragment ∧
      nativeConfig p
      = nativeConfig_of (merged_config (σ' !!! opts) (default (mkCallConfig ∅ None) config_)
                                       fragment).
Proof.
  unfold prepare.
  destruct (config σ this) as [[opts|e] σ1]; cbn [settled_bind]; [|discriminate].
  destruct (call_override _ (σ1 !!! opts)) as [fragment|e] eqn:Hover;
    cbn [settled_bind]; [|discriminate].
  destruct (new_Request _ _) as [currentRequest|e]; cbn [settled_bind]; [|discriminate].
  destruct ((σ1 !!! opts) !! "params") as [[d|paramS|f]|] eqn:Hparams;
    cbn [as_schema settled_bind]; try discriminate.
  destruct ((σ1 !!! opts) !! "body") as [[d|bodyS|f]|] eqn:Hbody;
    cbn [as_schema settled_bind]; try discriminate.
  intros [= <- <-]. exists opts. cbn. split_and!; try done. by exists fragment.
Qed.

(** X17: the schemas of params, body and response and [handleResponse]
    are those of the instance config: two calls of the same instance use
    the same ones whatever their call configs hold, members named
    [params], [body], [response] or [handleResponse] included. *)
Theorem call_config_cannot_replace_schemas `{Platform} σ this config1 config2 p1 p2 σ1 σ2 :
  prepare σ this config1 = (Resolved p1, σ1) →
  prepare σ this config2 = (Resolved p2, σ2) →
  σ1 = σ2 ∧
  paramSchema p1 = paramSchema p2 ∧ bodySchema p1 = bodySchema p2 ∧
  responseSchema p1 = responseSchema p2 ∧ handleResponse p1 = handleResponse p2.
Proof.
  intros Hp1 Hp2.
  apply prepare_schemas in Hp1 as (o1 & Hc1 & Hpar1 & Hbody1 & -> & -> & _).
  apply prepare_schemas in Hp2 as (o2 & Hc2 & Hpar2 & Hbody2 & -> & -> & _).
  rewrite Hc1 in Hc2. injection Hc2 as <- <-.
  rewrite Hpar1 in Hpar2. rewrite Hbody1 in Hbody2.
  split_and!; congruence.
Qed.

(** A call of [layer] without argument and one with a [params] member. *)
Lemma call_config_cannot_replace_schemas_witness :
  let with_params :=
    mkPrepared None z_unknown z_unknown (Some (VSchema z_unknown)) None
               missing_url layer_partial (DObj [("id", DStr "42")]) DUndef
               (mkRequest (mkURL missing_url [] "") layer_partial) in
  @prepare (host not_found) layer_store layer (Some with_id_42)
  = (Resolved with_params, (config layer_store layer).2) ∧
  responseSchema layer_prepared = responseSchema with_params.
Proof.
  cbv zeta.
  assert (H1 : @prepare (host not_found) layer_store layer None
               = (Resolved layer_prepared, (config layer_store layer).2)) by (by vm_compute).
  assert (H2 : @prepare (host not_found) layer_store layer (Some with_id_42)
               = (Resolved (mkPrepared None z_unknown z_unknown (Some (VSchema z_unknown)) None
                    missing_url layer_partial (DObj [("id", DStr "42")]) DUndef
                    (mkRequest (mkURL missing_url [] "") layer_partial)),
                  (config layer_store layer).2)) by (by vm_compute).
  split; [exact H2|].
  exact (proj1 (proj2 (proj2 (proj2
    (@call_config_cannot_replace_schemas (host not_found) _ _ _ _ _ _ _ _ H1 H2))))).
Defined.

Lemma prepare_initial `{Platform} σ this config_ p σ' :
  prepare σ this config_ = (Resolved p, σ') →
  req_init (initialRequest p) = nativeConfig p.
Proof.
  unfold prepare.
  destruct (config σ this) as [[opts|e] σ1]; cbn [settled_bind]; [|discriminate].
  destruct (call_override _ (σ1 !!! opts)) as [fragment|e]; cbn [settled_bind]; [|discriminate].
  unfold new_Request.
  destruct (parse_URL _) as [u|]; cbn [settled_bind fst snd]; [|discriminate].
  destruct (init_error _); cbn [settled_bind]; [discriminate|].
  destruct (as_schema "paramSchema.pipe" _); cbn [settled_bind]; [|discriminate].
  destruct (as_schema "bodySchema.parseAsync" _); cbn [settled_bind]; [|discriminate].
  intros [= <- <-]. cbn. unfold spread. by rewrite (right_id_L ∅ (∪)).
Qed.

Lemma build_init `{Platform} p params body built :
  build p params body = Resolved built →
  req_init built = <["body" := VData body]> (nativeConfig p).
Proof.
  unfold build. rewrite setUrlParams_closed.
  destruct (parse_URL (stringUrl p)) as [u|]; [|done].
  destruct (init_error ∅); [done|]. cbn [settled_bind]. unfold new_Request.
  cbn [settled_bind fst snd req_url req_init].
  destruct (init_error _); [done|]. intros [= <-]. cbn. unfold spread.
  by rewrite (right_id_L ∅ (∪)).
Qed.

(** X18: the init of the preliminary request is the native config, and the
    init of the request built for sending is the native config with the
    validated body under [body].  The native config never holds [url],
    [params] or [body]; any other member of it, the call config's own
    [override] member aside, is taken from the override fragment, else
    from the call config, else from the closest definition along the
    chain, the instance's [response] and [handleResponse] excepted. *)
Theorem init_members_precedence `{Platform} σ this config_ p σ' fragment k :
  let cc := default (mkCallConfig ∅ None) config_ in
  chain_allocated σ this →
  prepare σ this config_ = (Resolved p, σ') →
  (∀ opts, config σ this = (Resolved opts, σ') →
           call_override (override cc) (σ' !!! opts) = Resolved fragment) →
  k ≠ "override" →
  req_init (initialRequest p) = nativeConfig p ∧
  (∀ params body built,
     build p params body = Resolved built →
     req_init built = <["body" := VData body]> (nativeConfig p)) ∧
  nativeConfig p !! k =
    if bool_decide (k ∈ ["url"; "params"; "body"]) then None
    else match fragment !! k with
         | Some d => Some (VData d)
         | None =>
             match members cc !! k with
             | Some d => Some (VData d)
             | None =>
                 if bool_decide (k ∈ ["response"; "handleResponse"]) then None
                 else closest σ this k
             end
         end.
Proof.
  cbv zeta. intros Hal Hprep Hfragment _.
  split; [by eapply prepare_initial|]. split; [intros ???; apply build_init|].
  apply prepare_schemas in Hprep
    as (opts & Hconfig & _ & _ & _ & _ & fragment' & Hover & ->).
  rewrite (Hfragment opts Hconfig) in Hover. injection Hover as <-.
  unfold nativeConfig_of.
  case_bool_decide as Hk.
  { rewrite !elem_of_cons, elem_of_nil in Hk. destruct Hk as [->|[->|[->|[]]]].
    - apply lookup_delete_eq.
    - rewrite lookup_delete_ne by done. apply lookup_delete_eq.
    - rewrite !lookup_delete_ne by done. apply lookup_delete_eq. }
  assert (k ≠ "url" ∧ k ≠ "params" ∧ k ≠ "body") as (? & ? & ?).
  { split_and!; intros ->; apply Hk; set_solver. }
  rewrite !lookup_delete_ne by done. rewrite merged_config_precedence.
  destruct (fragment !! k); [done|]. destruct (members _ !! k); [done|].
  unfold instanceConfigRest.
  case_bool_decide as Hk'.
  { rewrite !elem_of_cons, elem_of_nil in Hk'. destruct Hk' as [->|[->|[]]].
    - rewrite lookup_delete_ne by done. apply lookup_delete_eq.
    - apply lookup_delete_eq. }
  assert (k ≠ "response" ∧ k ≠ "handleResponse") as (? & ?).
  { split_and!; intros ->; apply Hk'; set_solver. }
  rewrite !lookup_delete_ne by done.
  destruct (config_stages σ this opts σ' Hal Hconfig) as (σ1 & Hmerged & Hplain & _).
  rewrite Hplain, Hmerged; [done|].
  unfold schema_keys. rewrite !not_elem_of_cons. split_and!; [done..|apply not_elem_of_nil].
Qed.

(** The [name] of [layer] reaches the init of a call without argument, of
    the preliminary request as of the request built. *)
Lemma init_members_precedence_witness :
  nativeConfig layer_prepared !! "name" = Some (VData (DStr "interceptor-layer")) ∧
  req_init (initialRequest layer_prepared) !! "name" = Some (VData (DStr "interceptor-layer")).
Proof.
  destruct (@init_members_precedence (host not_found) layer_store layer None layer_prepared
              (config layer_store layer).2 ∅ "name") as (Hinitial & _ & Hname).
  - apply (bool_decide_unpack _). by vm_compute.
  - by vm_compute.
  - intros opts _. by vm_compute.
  - done.
  - rewrite Hinitial, Hname. split; by vm_compute.
Defined.

(** ** Listeners and registrations *)

Lemma occurrences_app {X} `{EqDecision X} (x : X) (l1 l2 : list X) :
  occurrences x (l1 ++ l2) = (occurrences x l1 + occurrences x l2)%nat.
Proof. unfold occurrences. by rewrite filter_app, length_app. Qed.

Lemma occurrences_cons {X} `{EqDecision X} (x y : X) (l : list X) :
  occurrences x (y :: l) = ((if decide (y = x) then 1 else 0) + occurrences x l)%nat.
Proof. unfold occurrences. rewrite filter_cons. by case_decide. Qed.

Lemma occurrences_pos {X} `{EqDecision X} (x : X) (l : list X) :
  (0 < occurrences x l)%nat → x ∈ l.
Proof.
  induction l as [|y l IH]; [cbn; lia|].
  rewrite occurrences_cons. case_decide as Hy; [subst; by left|].
  intros Hpos. right. apply IH. lia.
Qed.

Lemma first_occurrence {A C} (array : list (callback A C)) id :
  id ∈ cb_id <$> array →
  ∃ pre c post, array = pre ++ c :: post ∧ cb_id c = id ∧ (id ∉ cb_id <$> pre).
Proof.
  induction array as [|c array IH]; intros Hin.
  { by apply elem_of_nil in Hin. }
  destruct (decide (cb_id c = id)) as [Heq|Hne].
  - exists [], c, array. split_and!; [done..|apply not_elem_of_nil].
  - cbn [fmap list_fmap] in Hin. apply elem_of_cons in Hin as [Heq|Hin]; [done|].
    destruct (IH Hin) as (pre & c' & post & -> & Hid & Hfresh).
    exists (c :: pre), c', post. split_and!; [done..|].
    cbn [fmap list_fmap]. apply not_elem_of_cons. split; [congruence|done].
Qed.

Lemma splice_first_counts {A C} (array : list (callback A C)) id id' :
  id ∈ cb_id <$> array →
  (occurrences id' (cb_id <$> splice1 array (indexOf array id))
   + (if decide (id = id') then 1 else 0))%nat
  = occurrences id' (cb_id <$> array).
Proof.
  intros Hin. destruct (first_occurrence array id Hin) as (pre & c & post & -> & <- & Hfresh).
  rewrite indexOf_first, splice1_at by done.
  rewrite !fmap_app, !occurrences_app. cbn [fmap list_fmap]. rewrite occurrences_cons. lia.
Qed.

Lemma remove_callback_counts ev id a ev' id' :
  id ∈ ids_at ev a →
  (occurrences id' (ids_at ev' (remove_callback ev id a))
   + (if decide ((ev', id') = (ev, id)) then 1 else 0))%nat
  = occurrences id' (ids_at ev' a).
Proof.
  intros Hin.
  destruct ev, ev'; cbn [ids_at remove_callback request response error] in *;
    try (rewrite decide_False by congruence; lia);
    pose proof (splice_first_counts _ id id' Hin) as Hcount;
    repeat case_decide; simplify_eq; lia.
Qed.

Lemma run_counts arrs L A (l t : loc * InterceptorEvent * nat) :
  (0 < registered (mkRegistry arrs L A) l)%nat →
  (registered (mkRegistry (<[l.1.1 := remove_callback l.1.2 l.2 (arrs !!! l.1.1)]> arrs) L A) t
   + (if decide (t = l) then 1 else 0))%nat
  = registered (mkRegistry arrs L A) t.
Proof.
  unfold registered. cbn [arrays].
  destruct l as [[at_ ev] id], t as [[at' ev'] id']. cbn [fst snd].
  intros Hpos. apply occurrences_pos in Hpos.
  destruct (decide (at' = at_)) as [->|Hne].
  - rewrite lookup_total_insert_eq.
    pose proof (remove_callback_counts ev id (arrs !!! at_) ev' id' Hpos) as Hcount.
    repeat case_decide; simplify_eq; lia.
  - rewrite lookup_total_insert_ne by done. rewrite decide_False by congruence. lia.
Qed.

Lemma abort_fold_counts L A ls : ∀ arrs,
  (∀ t, occurrences t ls ≤ registered (mkRegistry arrs L A) t)%nat →
  ∀ t,
    (registered
       (mkRegistry
          (foldl (λ arrs0 (l : loc * InterceptorEvent * nat),
                    <[l.1.1 := remove_callback l.1.2 l.2 (arrs0 !!! l.1.1)]> arrs0) arrs ls)
          L A) t
     + occurrences t ls)%nat
    = registered (mkRegistry arrs L A) t.
Proof.
  induction ls as [|l ls IH]; intros arrs Hcov t; cbn [foldl].
  { cbn. lia. }
  assert (Hpos : (0 < registered (mkRegistry arrs L A) l)%nat).
  { specialize (Hcov l). rewrite occurrences_cons, decide_True in Hcov by done. lia. }
  assert (Hcov' : ∀ t', (occurrences t' ls ≤ registered (mkRegistry
            (<[l.1.1 := remove_callback l.1.2 l.2 (arrs !!! l.1.1)]> arrs) L A) t')%nat).
  { intros t'. pose proof (run_counts arrs L A l t' Hpos) as Hstep'.
    specialize (Hcov t'). rewrite occurrences_cons in Hcov.
    repeat case_decide; simplify_eq; lia. }
  pose proof (IH _ Hcov' t) as Hrest.
  pose proof (run_counts arrs L A l t Hpos) as Hstep.
  rewrite occurrences_cons. repeat case_decide; simplify_eq; lia.
Qed.

Lemma waiting_delete (m : gmap nat (list (loc * InterceptorEvent * nat))) s t :
  (map_fold (λ _ ls n, n + occurrences t ls)%nat 0%nat (delete s m)
   + occurrences t (default [] (m !! s)))%nat
  = map_fold (λ _ ls n, n + occurrences t ls)%nat 0%nat m.
Proof.
  destruct (m !! s) as [ls|] eqn:Hs; cbn [default from_option].
  - rewrite (map_fold_delete_L _ _ s ls m); [done| |done]. intros. lia.
  - rewrite delete_id by done. cbn. lia.
Qed.

Lemma waiting_insert (m : gmap nat (list (loc * InterceptorEvent * nat))) s ls' t :
  (map_fold (λ _ ls n, n + occurrences t ls)%nat 0%nat (<[s := ls']> m)
   + occurrences t (default [] (m !! s)))%nat
  = (map_fold (λ _ ls n, n + occurrences t ls)%nat 0%nat m + occurrences t ls')%nat.
Proof.
  rewrite <- insert_delete_eq.
  rewrite map_fold_insert_L; [|intros; lia|apply lookup_delete_eq].
  pose proof (waiting_delete m s t). lia.
Qed.

Lemma registered_add ρ owner i signal t :
  registered (addInterceptor ρ owner i signal) t
  = (registered ρ t
     + (if decide (t = (interceptors owner, event_of i, id_of i)) then 1 else 0))%nat.
Proof.
  unfold registered. rewrite addInterceptor_arrays.
  destruct t as [[at_ ev] id]. cbn [fst snd].
  case_decide as Hat.
  - subst. destruct i as [c|c|c], ev; cbn [push ids_at request response error event_of id_of];
      rewrite ?fmap_app, ?occurrences_app; cbn [fmap list_fmap];
      rewrite ?occurrences_cons; repeat case_decide; simplify_eq; cbn; lia.
  - rewrite decide_False by congruence. lia.
Qed.

Lemma covered_add ρ owner i signal :
  covered ρ → covered (addInterceptor ρ owner i signal).
Proof.
  intros Hcov t. specialize (Hcov t). rewrite registered_add.
  unfold waiting in *. destruct signal as [s|]; cbn [addInterceptor listeners]; [|lia].
  pose proof (waiting_insert (listeners ρ) s
                (default [] (listeners ρ !! s) ++ [(interceptors owner, event_of i, id_of i)]) t)
    as Hins.
  rewrite occurrences_app, occurrences_cons in Hins. cbn in Hins.
  repeat case_decide; simplify_eq; lia.
Qed.

Lemma listeners_covered ρ s t :
  covered ρ →
  (occurrences t (default [] (listeners ρ !! s)) ≤ registered ρ t)%nat.
Proof.
  intros Hcov. specialize (Hcov t). unfold waiting in Hcov.
  pose proof (waiting_delete (listeners ρ) s t). lia.
Qed.

Lemma registered_abort ρ s t :
  covered ρ → (s ∉ aborted ρ) →
  (registered (abort ρ s) t + occurrences t (default [] (listeners ρ !! s)))%nat
  = registered ρ t.
Proof.
  intros Hcov Hs. unfold abort. rewrite decide_False by done.
  destruct ρ as [arrs L A]. cbn [arrays listeners aborted].
  assert (Hls : ∀ t', (occurrences t' (default [] (L !! s))
                       ≤ registered (mkRegistry arrs L A) t')%nat).
  { intros t'. apply (listeners_covered (mkRegistry arrs L A) s t' Hcov). }
  pose proof (abort_fold_counts L A _ arrs Hls t) as Hcount.
  unfold registered in *. cbn [arrays] in *. exact Hcount.
Qed.

Lemma covered_abort ρ s : covered ρ → covered (abort ρ s).
Proof.
  intros Hcov. destruct (decide (s ∈ aborted ρ)) as [Hs|Hs].
  { unfold abort. by rewrite decide_True. }
  intros t. pose proof (registered_abort ρ s t Hcov Hs) as Hreg.
  specialize (Hcov t). unfold waiting in *.
  unfold abort at 1. rewrite decide_False by done. cbn [listeners].
  pose proof (waiting_delete (listeners ρ) s t). lia.
Qed.

Lemma covered_without_listeners ρ : listeners ρ = ∅ → covered ρ.
Proof. intros Hnone t. unfold waiting. rewrite Hnone, map_fold_empty. lia. Qed.

Lemma covered_reached ρ (actions : list action) :
  covered ρ → covered (foldl act ρ actions).
Proof.
  revert ρ. induction actions as [|a actions IH]; intros ρ Hcov; [done|].
  cbn [foldl]. apply IH. destruct a as [owner i signal|s]; cbn [act].
  - by apply covered_add.
  - by apply covered_abort.
Qed.

(** X19: through [addInterceptor] and [abort] alone, from a state where no
    listener is waiting, every waiting listener keeps finding its callback
    in its array: the case in which a listener removes another interceptor
    is never reached. *)
Theorem listeners_stay_covered ρ (actions : list action) :
  listeners ρ = ∅ →
  covered (foldl act ρ actions).
Proof.
  intros Hnone.
  assert (Hcov : covered ρ).
  { intros t. unfold waiting. rewrite Hnone, map_fold_empty. lia. }
  clear Hnone. revert ρ Hcov.
  induction actions as [|a actions IH]; intros ρ Hcov; [done|].
  cbn [foldl]. apply IH. destruct a as [owner i signal|s]; cbn [act].
  - by apply covered_add.
  - by apply covered_abort.
Qed.

(** [addAuth] is registered twice with signal [0] and once without; the
    signal fires; it is registered with signal [1]. *)
Lemma listeners_stay_covered_witness :
  covered (foldl act no_registry
             [Add layer (OnRequest addAuth) (Some 0); Add layer (OnRequest addAuth) None;
              Add layer (OnRequest addAuth) (Some 0); Abort 0;
              Add layer (OnRequest addAuth) (Some 1)]).
Proof. apply (listeners_stay_covered no_registry). reflexivity. Defined.

(** X20: in such a state, a signal that fires removes, for every callback,
    event and instance, exactly as many registrations as were made with
    this signal, and no other. *)
Theorem abort_removes_its_own_registrations ρ0 (actions : list action) s t :
  listeners ρ0 = ∅ →
  let ρ := foldl act ρ0 actions in
  (s ∉ aborted ρ) →
  (registered (abort ρ s) t + occurrences t (default [] (listeners ρ !! s)))%nat
  = registered ρ t.
Proof.
  intros Hnone ρ Hs. apply registered_abort; [|done].
  by apply covered_reached, covered_without_listeners.
Qed.

(** [addAuth] registered twice with signal [0] and once without: one
    registration is left after the signal fired. *)
Lemma abort_removes_its_own_registrations_witness :
  let ρ := foldl act no_registry
             [Add layer (OnRequest addAuth) (Some 0); Add layer (OnRequest addAuth) None;
              Add layer (OnRequest addAuth) (Some 0)] in
  registered ρ (0, ev_request, 7) = 3%nat ∧
  registered (abort ρ 0) (0, ev_request, 7) = 1%nat.
Proof.
  cbv zeta. split; [by vm_compute|].
  pose proof (abort_removes_its_own_registrations no_registry
    [Add layer (OnRequest addAuth) (Some 0); Add layer (OnRequest addAuth) None;
     Add layer (OnRequest addAuth) (Some 0)] 0 (0, ev_request, 7) eq_refl) as Hcount.
  cbv zeta in Hcount.
  specialize (Hcount ltac:(apply (bool_decide_unpack _); by vm_compute)).
  set (ρ := foldl act no_registry _) in *.
  replace (occurrences (0%nat, ev_request, 7%nat) (default [] (listeners ρ !! 0%nat)))
    with 2%nat in Hcount by (by vm_compute).
  replace (registered ρ (0%nat, ev_request, 7%nat)) with 3%nat in Hcount by (by vm_compute).
  lia.
Defined.

(** ** The start script *)

Lemma existsb_key (scripts_ : list (string * string)) k pfx n :
  existsb (λ kv2, startsWith k pfx && bool_decide (substring_from n k = kv2.1)) scripts_
  = startsWith k pfx && bool_decide (substring_from n k ∈ scripts_.*1).
Proof.
  induction scripts_ as [|kv scripts_ IH]; cbn [existsb fmap list_fmap].
  - by rewrite andb_false_r.
  - rewrite IH. destruct (startsWith k pfx); [|done]. cbn [andb].
    rewrite <- bool_decide_or. apply bool_decide_ext. by rewrite elem_of_cons.
Qed.

Lemma Object_fromEntries_NoDup {V} (entries : list (string * V)) :
  NoDup entries.*1 → Object_fromEntries entries = entries.
Proof.
  intros Hnd. unfold Object_fromEntries.
  rewrite (foldl_js_set_fresh fst snd entries []).
  - cbn [app]. rewrite <- (list_fmap_id entries) at 2. apply list_fmap_ext. by intros ? [??].
  - done.
  - intros ? _. apply not_elem_of_nil.
Qed.

Lemma filterScripts_entries (all : list (string * string)) (l : list (string * string)) :
  (λ e, (e_key e, e_value e))
    <$> filter (λ e, isPre e = false)
          (filter (λ e, isPost e = false)
             ((λ kv, mkEntry kv.1 kv.2
                 (existsb (λ kv2, startsWith kv.1 "pre"
                                  && bool_decide (substring_from 3 kv.1 = kv2.1)) all)
                 (existsb (λ kv2, startsWith kv.1 "post"
                                  && bool_decide (substring_from 4 kv.1 = kv2.1)) all))
              <$> l))
  = filter (λ kv, is_hook all.*1 kv.1 = false) l.
Proof.
  induction l as [|[k v] l IH]; [done|].
  cbn [fmap list_fmap fst snd]. rewrite !existsb_key.
  assert (Hhook : is_hook all.*1 k
                  = (startsWith k "pre" && bool_decide (substring_from 3 k ∈ all.*1))
                    || (startsWith k "post" && bool_decide (substring_from 4 k ∈ all.*1)))
    by done.
  revert Hhook.
  generalize (startsWith k "pre" && bool_decide (substring_from 3 k ∈ all.*1)).
  generalize (startsWith k "post" && bool_decide (substring_from 4 k ∈ all.*1)).
  intros post pre Hhook.
  rewrite (filter_cons (λ kv, is_hook all.*1 kv.1 = false)). cbn [fst]. rewrite Hhook.
  destruct post.
  - rewrite filter_cons_False by (cbn; congruence).
    rewrite orb_true_r, decide_False by congruence. apply IH.
  - rewrite filter_cons_True by done. rewrite orb_false_r.
    destruct pre.
    + rewrite filter_cons_False by (cbn; congruence).
      rewrite decide_False by congruence. apply IH.
    + rewrite filter_cons_True by done. rewrite decide_True by done.
      cbn [fmap list_fmap e_key e_value]. f_equal. apply IH.
Qed.

Lemma filtered_keys_NoDup {V} (P : string * V → Prop) `{∀ x, Decision (P x)}
  (l : list (string * V)) :
  NoDup l.*1 → NoDup (filter P l).*1.
Proof.
  intros Hnd. eapply sublist_NoDup; [exact Hnd|].
  apply fmap_sublist, sublist_filter.
Qed.

Lemma filterScripts_filter scripts_ :
  NoDup scripts_.*1 →
  filterScripts scripts_ = filter (λ kv, is_hook scripts_.*1 kv.1 = false) scripts_.
Proof.
  intros Hnd. unfold filterScripts. cbv zeta.
  rewrite filterScripts_entries. apply Object_fromEntries_NoDup.
  by apply filtered_keys_NoDup.
Qed.

Lemma is_hook_mono (keys keys' : list string) k :
  keys' ⊆ keys → is_hook keys k = false → is_hook keys' k = false.
Proof.
  unfold is_hook. intros Hsub Hk.
  apply orb_false_elim in Hk as [Hpre Hpost].
  apply orb_false_intro.
  - destruct (startsWith k "pre"); [|done]. cbn [andb] in *.
    apply bool_decide_eq_false. apply bool_decide_eq_false in Hpre. auto.
  - destruct (startsWith k "post"); [|done]. cbn [andb] in *.
    apply bool_decide_eq_false. apply bool_decide_eq_false in Hpost. auto.
Qed.

(** X21: of a manifest, [filterScripts] keeps, in their order and with
    their commands, the scripts whose name is not [pre] or [post] followed
    by the name of a script of the same manifest, and removes the others:
    [preview] goes when there is a [view]. *)
Theorem filterScripts_removes_hooks scripts_ :
  NoDup scripts_.*1 →
  filterScripts scripts_ = filter (λ kv, is_hook scripts_.*1 kv.1 = false) scripts_ ∧
  ∀ k v, (k, v) ∈ filterScripts scripts_ ↔ (k, v) ∈ scripts_ ∧ is_hook scripts_.*1 k = false.
Proof.
  intros Hnd. rewrite filterScripts_filter by done. split; [done|].
  intros k v. rewrite list_elem_of_filter. cbn [fst]. tauto.
Qed.

(** The root manifest: [prestart] goes, and [preview] since there is a
    [view]; [postinstall] stays, there being no [install]. *)
Lemma filterScripts_removes_hooks_witness :
  filterScripts root_scripts
  = [("start", "node scripts/start.js"); ("view", "open ."); ("postinstall", "husky");
     ("test", "vitest")].
Proof.
  rewrite (proj1 (filterScripts_removes_hooks root_scripts
                    ltac:(apply (bool_decide_unpack _); by vm_compute))).
  by vm_compute.
Defined.

(** X22: filtering what has been filtered removes nothing more. *)
Theorem filterScripts_idempotent scripts_ :
  NoDup scripts_.*1 →
  filterScripts (filterScripts scripts_) = filterScripts scripts_.
Proof.
  intros Hnd. rewrite (filterScripts_filter scripts_) by done.
  rewrite filterScripts_filter by by apply filtered_keys_NoDup.
  apply list_filter_filter_r. intros [k v]. cbn [fst]. apply is_hook_mono.
  intros k' Hk'. apply list_elem_of_fmap in Hk' as (kv & -> & Hkv).
  apply list_elem_of_filter in Hkv as [_ Hkv].
  apply list_elem_of_fmap. by exists kv.
Qed.

Lemma filterScripts_idempotent_witness :
  filterScripts (filterScripts root_scripts) = filterScripts root_scripts.
Proof.
  apply (filterScripts_idempotent root_scripts).
  apply (bool_decide_unpack _). by vm_compute.
Defined.

(** X23: a script whose name starts with neither [pre] nor [post] is never
    removed; so [filterStartScripts] finds a [start] script in the filtered
    manifest exactly when the manifest has one. *)
Theorem filterScripts_keeps_start scripts_ root input name_ description_ :
  NoDup scripts_.*1 →
  (∀ k, startsWith k "pre" = false → startsWith k "post" = false →
        (k ∈ (filterScripts scripts_).*1 ↔ k ∈ scripts_.*1)) ∧
  filterStartScripts root input (mkPackage name_ description_ (filterScripts scripts_))
  = filterStartScripts root input (mkPackage name_ description_ scripts_).
Proof.
  intros Hnd. rewrite filterScripts_filter by done.
  assert (Hkept : ∀ k, startsWith k "pre" = false → startsWith k "post" = false →
    (k ∈ (filter (λ kv, is_hook scripts_.*1 kv.1 = false) scripts_).*1 ↔ k ∈ scripts_.*1)).
  { intros k Hpre Hpost. rewrite !list_elem_of_fmap. split.
    - intros (kv & -> & Hkv). apply list_elem_of_filter in Hkv as [_ Hkv]. by exists kv.
    - intros (kv & -> & Hkv). exists kv. split; [done|].
      apply list_elem_of_filter. split; [|done].
      unfold is_hook. by rewrite Hpre, Hpost. }
  split; [done|].
  unfold filterStartScripts. cbn [pkg_name scripts]. f_equal.
  apply bool_decide_ext. by apply Hkept.
Qed.

Lemma filterScripts_keeps_start_witness :
  filterStartScripts "root" "" (mkPackage "@amono/app" "" (filterScripts root_scripts)) = true.
Proof.
  rewrite (proj2 (filterScripts_keeps_start root_scripts "root" "" "@amono/app" ""
                    ltac:(apply (bool_decide_unpack _); by vm_compute))).
  by vm_compute.
Defined.

Lemma nothing_given (args : list string) :
  length (filter (λ a, a ≠ "") args) = 0%nat ↔ Forall (λ a, a = "") args.
Proof.
  induction args as [|a args IH]; [by split|].
  rewrite filter_cons, Forall_cons. case_decide as Ha.
  - split; [done|]. by intros [? _].
  - rewrite IH. tauto.
Qed.

(** X24: the command [formatScript] builds is [npm run], the script name
    unless it is empty, [-w] and the workspace unless the workspace is
    [root], and, unless every argument is empty, [--] and all the
    arguments, the empty ones among them included. *)
Theorem formatScript_command script workspace args :
  let s := default "" script in
  let w := default "" workspace in
  let a := default [""] args in
  formatScript script workspace args
  = join " " (["npm"; "run"]
              ++ (if decide (s = "") then [] else [s])
              ++ (if decide (w = "root") then [] else ["-w"; w])
              ++ (if decide (Forall (λ x, x = "") a) then [] else "--" :: a)).
Proof.
  cbv zeta. unfold formatScript.
  generalize (default "" script) (default "" workspace) (default [""] args).
  clear. intros s w a. f_equal.
  rewrite 2!filter_cons_True by done.
  cbn [mbind list_bind flat_cell app]. do 2 f_equal.
  assert (Hgiven : bool_decide (length (filter (λ x, x ≠ "") a) = 0%nat)
                   = bool_decide (Forall (λ x, x = "") a))
    by apply bool_decide_ext, nothing_given.
  rewrite Hgiven. clear Hgiven.
  rewrite filter_cons. cbn [truthy].
  destruct (decide (s = "")) as [->|Hs].
  - rewrite bool_decide_eq_true_2 by done. cbn [negb].
    rewrite decide_False by done. cbn [app].
    destruct (decide (w = "root")) as [->|Hw].
    + rewrite bool_decide_eq_false_2 by (by intros ?).
      rewrite filter_cons_False by done.
      destruct (decide (Forall (λ x, x = "") a)).
      * rewrite bool_decide_eq_true_2 by done. by rewrite filter_cons_False by done.
      * rewrite bool_decide_eq_false_2 by done. rewrite filter_cons_True by done.
        cbn. by rewrite app_nil_r.
    + rewrite bool_decide_eq_true_2 by done.
      rewrite filter_cons_True by done.
      destruct (decide (Forall (λ x, x = "") a)).
      * rewrite bool_decide_eq_true_2 by done. by rewrite filter_cons_False by done.
      * rewrite bool_decide_eq_false_2 by done. rewrite filter_cons_True by done.
        cbn. by rewrite app_nil_r.
  - rewrite bool_decide_eq_false_2 by done. cbn [negb].
    rewrite decide_True by done. cbn [mbind list_bind flat_cell app]. f_equal.
    destruct (decide (w = "root")) as [->|Hw].
    + rewrite bool_decide_eq_false_2 by (by intros ?).
      rewrite filter_cons_False by done.
      destruct (decide (Forall (λ x, x = "") a)).
      * rewrite bool_decide_eq_true_2 by done. by rewrite filter_cons_False by done.
      * rewrite bool_decide_eq_false_2 by done. rewrite filter_cons_True by done.
        cbn. by rewrite app_nil_r.
    + rewrite bool_decide_eq_true_2 by done.
      rewrite filter_cons_True by done.
      destruct (decide (Forall (λ x, x = "") a)).
      * rewrite bool_decide_eq_true_2 by done. by rewrite filter_cons_False by done.
      * rewrite bool_decide_eq_false_2 by done. rewrite filter_cons_True by done.
        cbn. by rewrite app_nil_r.
Qed.

Lemma longest_fold (len : string → nat) (names : list string) : ∀ acc,
  let longest := foldl (λ a e, if decide (a < len e)%nat then len e else a) acc names in
  (acc ≤ longest)%nat ∧
  (∀ e, e ∈ names → (len e ≤ longest)%nat) ∧
  (longest = acc ∨ ∃ e, e ∈ names ∧ longest = len e).
Proof.
  induction names as [|e names IH]; intros acc; cbn [foldl].
  - split_and!; [done| |by left]. intros e He. by apply elem_of_nil in He.
  - cbv zeta in *.
    destruct (IH (if decide (acc < len e)%nat then len e else acc)) as (Hacc & Hall & Hmax).
    split_and!.
    + case_decide; lia.
    + intros e' He'. apply elem_of_cons in He' as [->|He']; [|by apply Hall].
      case_decide; lia.
    + destruct Hmax as [Hmax|(e' & He' & Hmax)].
      * case_decide; [right; exists e; split; [by left|done] | by left].
      * right. exists e'. split; [by right|done].
Qed.

(** X25: [longestScriptNameLength] is at least the length of every script
    name of every package, so the count given to [repeat] is never
    negative, and it is the length of one of them: for that script the
    fill is empty. *)
Theorem fillLength_never_negative len packages p script :
  p ∈ packages →
  script ∈ (scripts p).*1 →
  (0 ≤ fillLength len packages script)%Z ∧
  ∃ p' script', p' ∈ packages ∧ script' ∈ (scripts p').*1 ∧
                fillLength len packages script' = 0%Z.
Proof.
  intros Hp Hscript. unfold fillLength, longestScriptNameLength.
  set (names := mjoin ((λ e, (scripts e).*1) <$> packages)).
  assert (Hnames : ∀ s, s ∈ names ↔ ∃ q, q ∈ packages ∧ s ∈ (scripts q).*1).
  { intros s. unfold names. rewrite list_elem_of_join. split.
    - intros (l & Hs & Hl). apply list_elem_of_fmap in Hl as (q & -> & Hq). by exists q.
    - intros (q & Hq & Hs). exists (scripts q).*1. split; [done|].
      apply list_elem_of_fmap. by exists q. }
  destruct (longest_fold len names 0%nat) as (_ & Hall & Hmax). cbv zeta in *.
  assert (Hin : script ∈ names) by (apply Hnames; by exists p).
  split.
  - specialize (Hall script Hin). lia.
  - destruct Hmax as [Hzero|(e & He & Hmax)].
    + exists p, script. split_and!; [done..|].
      specialize (Hall script Hin). lia.
    + apply Hnames in He as (q & Hq & He). exists q, e. split_and!; [done..|]. lia.
Qed.

(** The [build] script of the workspace, with the root manifest beside it. *)
Lemma fillLength_never_negative_witness :
  (0 ≤ fillLength String.length [liaison_pkg; mkPackage "root" "" root_scripts] "build")%Z.
Proof.
  apply (fillLength_never_negative String.length
           [liaison_pkg; mkPackage "root" "" root_scripts] liaison_pkg "build").
  - by left.
  - apply (bool_decide_unpack _). by vm_compute.
Defined.

(** ** New instances and the store *)

Lemma new_Liaison_arrays ρ extend config_ l :
  arrays (new_Liaison ρ extend config_).2 !!! l = arrays ρ !!! l.
Proof.
  cbn. destruct (decide (l = fresh (dom (arrays ρ)))) as [->|Hne].
  - rewrite lookup_total_insert_eq, lookup_total_alt.
    by rewrite (not_elem_of_dom_1 _ _ (is_fresh (dom (arrays ρ)))).
  - by rewrite lookup_total_insert_ne.
Qed.

Lemma pipeline_of_extension {T} ρ e p i (event : Interceptors → list T) :
  pipeline ρ (Liaison (Some e) p i) event = pipeline ρ e event ++ event (arrays ρ !!! i).
Proof.
  unfold pipeline, root_to_leaf. cbn [ancestors].
  rewrite (reverse_cons (e :: ancestors e)), fmap_app, join_app. cbn.
  by rewrite app_nil_r.
Qed.

(** X26: a new instance starts with the pipelines of the instance it
    extends, with empty ones when it extends nothing, and creating it
    changes the pipelines of no instance. *)
Theorem new_Liaison_inherits_pipelines ρ extend config_ :
  let this := (new_Liaison ρ extend config_).1 in
  let ρ' := (new_Liaison ρ extend config_).2 in
  pipeline ρ' this request
  = match extend with Some e => pipeline ρ e request | None => [] end ∧
  pipeline ρ' this response
  = match extend with Some e => pipeline ρ e response | None => [] end ∧
  pipeline ρ' this error
  = match extend with Some e => pipeline ρ e error | None => [] end ∧
  ∀ other, pipeline ρ' other request = pipeline ρ other request ∧
           pipeline ρ' other response = pipeline ρ other response ∧
           pipeline ρ' other error = pipeline ρ other error.
Proof.
  cbv zeta.
  assert (Hsame : ∀ T (event : Interceptors → list T) other,
    pipeline (new_Liaison ρ extend config_).2 other event = pipeline ρ other event).
  { intros T event other. apply pipeline_ext. intros l. apply new_Liaison_arrays. }
  assert (Hnew : ∀ T (event : Interceptors → list T),
    event (mkInterceptors [] [] []) = [] →
    pipeline (new_Liaison ρ extend config_).2 (new_Liaison ρ extend config_).1 event
    = match extend with Some e => pipeline ρ e event | None => [] end).
  { intros T event Hempty. rewrite Hsame. cbn [new_Liaison fst].
    assert (Hfresh : event (arrays ρ !!! fresh (dom (arrays ρ))) = []).
    { rewrite lookup_total_alt.
      by rewrite (not_elem_of_dom_1 _ _ (is_fresh (dom (arrays ρ)))). }
    destruct extend as [e|].
    - by rewrite pipeline_of_extension, Hfresh, app_nil_r.
    - unfold pipeline, root_to_leaf. cbn. by rewrite Hfresh. }
  split_and!; [by apply Hnew..|]. intros other. by rewrite !Hsame.
Qed.

